(** * IBM Quantum QCE20 tutorials: the analysis code of the notebooks

    A shallow embedding of the Python that the notebooks define themselves:

    - [Hardware/Exercise 1 - Measuring Relaxation in Qubits.ipynb]:
      [calc_prob1], [inversion_recovery_function], [get_qubit_counts],
      [extract_prob1_data], [fit_t1];
    - the optimisation notebook stored in the same file: the MaxCut
      [objective] over the five-node graph [edges];
    - [QCVV/Session 2.ipynb]: the error-per-Clifford formula.

    Conventions of the embedding.
    - A Qiskit counts dictionary is a [gmap string Z]: bitstring keys, Python
      [int] values.
    - Python exceptions are values of [exception] ([OtherError] stands for
      any class the notebooks do not raise themselves, by name); a call that
      can raise returns an [outcome].
    - True division of two Python ints is the exact rational quotient (type
      [Q]); NumPy float arithmetic ([np.exp], float division) is real
      arithmetic (type [R]).  Rounding, overflow and underflow of IEEE doubles
      are outside these models; statements that rest on exactness say so.
      Module [F64] has the model function on binary64 numbers, with
      [np.exp] left open.
    - Calls into Qiskit ([Result.get_counts], [marginal_counts]) and into the
      [fitting] module ([fit_function]) are parameters. *)

From Stdlib Require Import ZArith QArith Qround Reals Lra Lia.
From Stdlib Require Lqa Floats.
From stdpp Require Import base option gmap strings list sorting.

Local Open Scope Z_scope.

(** ** Exceptions and outcomes *)

Inductive exception : Type :=
  | ZeroDivisionError
  | IndexError
  | OtherError (name : string).

Inductive outcome (A : Type) : Type :=
  | Returns (a : A)
  | Raises (e : exception).

Arguments Returns {A} a.
Arguments Raises {A} e.

Definition obind {A B : Type} (m : outcome A) (k : A -> outcome B) : outcome B :=
  match m with
  | Returns a => k a
  | Raises e => Raises e
  end.

Declare Scope outcome_scope.
Delimit Scope outcome_scope with outcome.
Notation "'let!' x ':=' m 'in' k" := (obind m (fun x => k))
  (at level 10, x name, m at level 100, k at level 200) : outcome_scope.
Local Open Scope outcome_scope.

Definition raises {A : Type} (m : outcome A) : Prop :=
  match m with
  | Returns _ => False
  | Raises _ => True
  end.

(** ** Counts dictionaries *)

Abbreviation Counts := (gmap string Z).

(** [counts.get(key, dflt)] *)
Definition dict_get (counts : Counts) (key : string) (dflt : Z) : Z :=
  default dflt (counts !! key).

(** The data-model invariant: every stored count is a non-negative integer. *)
Definition counts_wf (counts : Counts) : Prop :=
  map_Forall (fun _ v => 0 <= v) counts.

(** [a / b] on Python ints, as the exact quotient.  Python returns the
    double nearest to it, and raises [OverflowError] when the quotient is
    too large for a double; neither is modelled. *)
Definition true_div (a b : Z) : outcome Q :=
  if decide (b = 0) then Raises ZeroDivisionError
  else Returns (inject_Z a / inject_Z b)%Q.

(** [[
    def calc_prob1(counts):
        return counts.get('1', 0) / (counts.get('0', 0) + counts.get('1', 0))
    ]] *)
Definition calc_prob1 (counts : Counts) : outcome Q :=
  true_div (dict_get counts "1" 0)
           (dict_get counts "0" 0 + dict_get counts "1" 0).

(** The probability of outcome 0 in the words of the markdown cell
    [Pr(0|tau)]: the share of '0' counts among the '0' and '1' counts.
    Only used to compare with what [calc_prob1] computes. *)
Definition spec_prob0 (counts : Counts) : outcome Q :=
  true_div (dict_get counts "0" 0)
           (dict_get counts "0" 0 + dict_get counts "1" 0).

(** [[
    def inversion_recovery_function(tau, t1):
        return np.exp(-tau/t1)
    ]]
    over the reals: the function that the code approximates in doubles.
    Rounding and underflow are not in it, and at [t1 = 0], where Python
    raises [ZeroDivisionError], it has the value 1 ([/ 0 = 0] in the real
    numbers of the library).  [F64.inversion_recovery_function] below is
    the function on doubles. *)
Definition inversion_recovery_function (tau t1 : R) : R :=
  exp (- tau / t1).

(** [[
    n_exps = 50
    min_delay = 0.
    max_delay = 200.e-6
    delays = np.linspace(min_delay, max_delay, n_exps)
    ]] *)
Definition n_exps : nat := 50.
Definition min_delay : R := 0.
Definition max_delay : R := 200 / 10 ^ 6.

Definition linspace (start stop : R) (num : nat) : list R :=
  map (fun i => start + INR i * ((stop - start) / INR (num - 1)))%R (seq 0 num).

Definition delays : list R := linspace min_delay max_delay n_exps.

(** A qubit of the calibrated chip; the analysis only reads [qubit.index]. *)
Record Qubit : Type := mkQubit { index : nat }.

(** [for i in range: s = body(i, s)], stopping at the first exception. *)
Fixpoint for_each {S : Type} (range : list nat)
    (body : nat -> S -> outcome S) (s : S) : outcome S :=
  match range with
  | [] => Returns s
  | i :: rest => let! s' := body i s in for_each rest body s'
  end.

Section ProbData.

(** The Qiskit result object and the two SDK calls made on it. *)
Variable Result : Type.
Variable get_counts : Result -> nat -> outcome Counts.
Variable marginal_counts : Counts -> list nat -> outcome Counts.

(** The notebook global [ir_result = ir_job.result()] read by
    [extract_prob1_data]. *)
Variable ir_result : Result.

(** [[
    def get_qubit_counts(qubit, result, index):
        return marginal_counts(result.get_counts(index), indices=[qubit.index])
    ]] *)
Definition get_qubit_counts (qubit : Qubit) (result : Result) (idx : nat)
    : outcome Counts :=
  let! full := get_counts result idx in
  marginal_counts full [index qubit].

(** The body of the loop of [extract_prob1_data]. *)
Definition extract_step (qubit : Qubit) (exp : nat) (prob_1s : list Q)
    : outcome (list Q) :=
  let! counts := get_qubit_counts qubit ir_result exp in
  let! prob_1 := calc_prob1 counts in
  Returns (<[exp := prob_1]> prob_1s).

(** What the loop computes for experiment [exp], apart from storing it. *)
Definition prob1_of_exp (qubit : Qubit) (exp : nat) : outcome Q :=
  let! counts := get_qubit_counts qubit ir_result exp in
  calc_prob1 counts.

(** [[
    def extract_prob1_data(result, qubit):
        index = qubit.index
        prob_1s = np.zeros(n_exps)
        for exp in range(n_exps):
            counts = get_qubit_counts(qubit, ir_result, exp)
            prob_1 = calc_prob1(counts)
            prob_1s[exp] = prob_1
        return prob_1s
    ]]
    The parameter [result] is not used: the loop reads the global
    [ir_result].  Neither is the local [index].  [prob_1s] is a fresh
    array of [n_exps] zeros, written at [exp < n_exps] only. *)
Definition extract_prob1_data (result : Result) (qubit : Qubit)
    : outcome (list Q) :=
  let prob_1s := replicate n_exps 0%Q in
  for_each (seq 0 n_exps) (extract_step qubit) prob_1s.

End ProbData.

(** ** Fitting: [fit_t1] and its call into the [fitting] module *)

(** A program that may call [fit_function]: the call is kept as a node of the
    tree, so that the calls a program makes can be counted. *)
Inductive prog (A : Type) : Type :=
  | Done (a : A)
  | Fail (e : exception)
  | CallFitFunction (x_values y_values : list R) (function : R -> R -> R)
      (init_params : list R) (k : list R * list R -> prog A).

Arguments Done {A} a.
Arguments Fail {A} e.
Arguments CallFitFunction {A} x_values y_values function init_params k.

(** One recorded call of [fit_function]. *)
Record fit_call : Type := mkFitCall {
  call_x_values : list R;
  call_y_values : list R;
  call_function : R -> R -> R;
  call_init_params : list R
}.

(** An implementation of [fit_function(x_values, y_values, function,
    init_params)], returning [(fit_params, y_fit)] or raising. *)
Definition fit_function_impl : Type :=
  list R -> list R -> (R -> R -> R) -> list R -> outcome (list R * list R).

(** Running a program against an implementation: the calls made, in order,
    and the outcome. *)
Fixpoint run {A : Type} (fit_function : fit_function_impl) (p : prog A)
    : list fit_call * outcome A :=
  match p with
  | Done a => ([], Returns a)
  | Fail e => ([], Raises e)
  | CallFitFunction xs ys f init k =>
      match fit_function xs ys f init with
      | Returns r =>
          let '(calls, out) := run fit_function (k r) in
          (mkFitCall xs ys f init :: calls, out)
      | Raises e => ([mkFitCall xs ys f init], Raises e)
      end
  end.

(** [[
    def fit_t1(delays, prob1_data):
        fit_params, y_fit = fit_function(
            delays,
            prob1_data,
            inversion_recovery_function,
            [100],
        )
        return fit_params[0], y_fit
    ]] *)
Definition fit_t1 (delays prob1_data : list R) : prog (R * list R) :=
  CallFitFunction delays prob1_data inversion_recovery_function [100%R]
    (fun '(fit_params, y_fit) =>
       match fit_params !! 0%nat with
       | Some t1 => Done (t1, y_fit)
       | None => Fail IndexError
       end).

Section Analysis.

Variable Result : Type.
Variable get_counts : Result -> nat -> outcome Counts.
Variable marginal_counts : Counts -> list nat -> outcome Counts.
Variable ir_result : Result.

(** The body of the analysis loop, for one qubit:
    [[
    prob1_data = extract_prob1_data(ir_result, qubit)
    scaled_delays = delays * 1e6
    t1, y_fit = fit_t1(scaled_delays, prob1_data)
    ]] *)
Definition analyse_qubit (qubit : Qubit) : prog (R * list R) :=
  match extract_prob1_data Result get_counts marginal_counts ir_result
          ir_result qubit with
  | Raises e => Fail e
  | Returns prob1_data =>
      let scaled_delays := map (fun d => d * 10 ^ 6)%R delays in
      fit_t1 scaled_delays (map Q2R prob1_data)
  end.

End Analysis.

(** ** The same functions over a store of Python objects

    Dictionaries and result objects are passed by reference.  To state that
    a function leaves the objects it is given as they are, the functions
    are written once more over a store, with every access to an object
    explicit. *)

Module Store.

Definition loc : Type := positive.

Section Objects.

(** What a Qiskit result object holds. *)
Variable ResultData : Type.

Inductive object : Type :=
  | DictObj (d : Counts)
  | ResultObj (r : ResultData).

Definition heap : Type := gmap loc object.

(** A computation reads and writes the store and returns or raises. *)
Definition M (A : Type) : Type := heap -> outcome A * heap.

Definition ret {A : Type} (a : A) : M A := fun h => (Returns a, h).

Definition bind {A B : Type} (m : M A) (k : A -> M B) : M B :=
  fun h =>
    match m h with
    | (Returns a, h') => k a h'
    | (Raises e, h') => (Raises e, h')
    end.

Definition lift {A : Type} (o : outcome A) : M A := fun h => (o, h).

(** [counts.get(key, dflt)] on the dictionary stored at [counts]. *)
Definition get (counts : loc) (key : string) (dflt : Z) : M Z :=
  fun h =>
    match h !! counts with
    | Some (DictObj d) => (Returns (dict_get d key dflt), h)
    | _ => (Raises (OtherError "AttributeError"), h)
    end.

Fixpoint for_each {S : Type} (range : list nat)
    (body : nat -> S -> M S) (s : S) : M S :=
  match range with
  | [] => ret s
  | i :: rest => bind (body i s) (for_each rest body)
  end.

(** The SDK calls: each takes references and returns a reference. *)
Variable get_counts : loc -> nat -> M loc.
Variable marginal_counts : loc -> list nat -> M loc.
Variable ir_result : loc.

(** The operands are evaluated left to right, then divided. *)
Definition calc_prob1 (counts : loc) : M Q :=
  bind (get counts "1" 0) (fun ones =>
  bind (get counts "0" 0) (fun zeros =>
  bind (get counts "1" 0) (fun ones' =>
  lift (true_div ones (zeros + ones'))))).

Definition get_qubit_counts (qubit : Qubit) (result : loc) (idx : nat)
    : M loc :=
  bind (get_counts result idx) (fun full =>
  marginal_counts full [index qubit]).

Definition extract_step (qubit : Qubit) (exp : nat) (prob_1s : list Q)
    : M (list Q) :=
  bind (get_qubit_counts qubit ir_result exp) (fun counts =>
  bind (calc_prob1 counts) (fun prob_1 =>
  ret (<[exp := prob_1]> prob_1s))).

Definition extract_prob1_data (result : loc) (qubit : Qubit)
    : M (list Q) :=
  let prob_1s := replicate n_exps 0%Q in
  for_each (seq 0 n_exps) (extract_step qubit) prob_1s.

(** A computation is read-only when every object of the store it starts
    from is still there, unchanged, when it ends: the store can only
    grow by new objects. *)
Definition read_only {A : Type} (m : M A) : Prop :=
  forall (h : heap) (l : loc) (o : object),
    h !! l = Some o -> (m h).2 !! l = Some o.

(** Every dictionary of the store satisfies the data-model invariant. *)
Definition heap_wf (h : heap) : Prop :=
  forall (l : loc) (d : Counts), h !! l = Some (DictObj d) -> counts_wf d.

End Objects.

Arguments DictObj {ResultData} d.
Arguments ResultObj {ResultData} r.
Arguments ret {ResultData A} a.
Arguments bind {ResultData A B} m k.
Arguments lift {ResultData A} o.
Arguments get {ResultData} counts key dflt.
Arguments for_each {ResultData S} range body s.
Arguments calc_prob1 {ResultData} counts.
Arguments read_only {ResultData A} m.
Arguments heap_wf {ResultData} h.

End Store.

(** ** The optimisation notebook: MaxCut on the five-node graph *)

Module MaxCut.

(** [[
    n = 5
    edges = [(0, 1, 1.0), (0, 2, 1.0), (0, 3, 1.0), (1, 2, 1.0),
             (2, 3, 1.0), (2, 4, 1.0), (3, 4, 1.0)]
    ]] *)
Definition n : nat := 5.

Definition edges : list (nat * nat * Q) :=
  [ (0, 1, 1%Q); (0, 2, 1%Q); (0, 3, 1%Q); (1, 2, 1%Q);
    (2, 3, 1%Q); (2, 4, 1%Q); (3, 4, 1%Q) ]%nat.

(** [mdl.sum(terms)] *)
Definition sum (terms : list Q) : Q := foldr Qplus 0%Q terms.

(** [[
    objective = mdl.sum([ w * (x[i] + x[j] - 2*x[i]*x[j]) for (i, j, w) in edges])
    ]]
    evaluated at the values [x] of the decision variables [x0 .. x4];
    [x[i]] raises [IndexError] past the end of the list. *)
Definition objective_term (x : list Z) (e : nat * nat * Q) : outcome Q :=
  let '(i, j, w) := e in
  match x !! i, x !! j with
  | Some xi, Some xj => Returns (w * inject_Z (xi + xj - 2 * xi * xj))%Q
  | _, _ => Raises IndexError
  end.

Fixpoint objective_terms (x : list Z) (es : list (nat * nat * Q))
    : outcome (list Q) :=
  match es with
  | [] => Returns []
  | e :: rest =>
      let! t := objective_term x e in
      let! ts := objective_terms x rest in
      Returns (t :: ts)
  end.

Definition objective_of (es : list (nat * nat * Q)) (x : list Z) : outcome Q :=
  let! ts := objective_terms x es in Returns (sum ts).

Definition objective (x : list Z) : outcome Q := objective_of edges x.

(** Every edge joins two of the first [len] nodes. *)
Definition edges_in_range (es : list (nat * nat * Q)) (len : nat) : Prop :=
  Forall (fun e => (e.1.1 < len)%nat /\ (e.1.2 < len)%nat) es.

(** A binary assignment of the [n] decision variables. *)
Definition binary (x : list Z) : Prop :=
  length x = n /\ Forall (fun v => v = 0 \/ v = 1) x.

(** The cut value in the words of the claim: the total weight of the
    edges whose endpoints get different values. *)
Definition is_cut (x : list Z) (e : nat * nat * Q) : bool :=
  let '(i, j, _) := e in bool_decide (x !! i <> x !! j).

Definition cut_value_of (es : list (nat * nat * Q)) (x : list Z) : Q :=
  sum (map (fun e => snd e) (filter (fun e => is_cut x e = true) es)).

Definition cut_value (x : list Z) : Q := cut_value_of edges x.

(** An assignment: nodes 1 and 3 on one side, nodes 0, 2 and 4 on the
    other. *)
Definition alternating : list Z := [0; 1; 0; 1; 0].

End MaxCut.

(** ** Randomized benchmarking: error per Clifford *)

Module RB.

(** [[
    rb_pattern = [[0]]       # 1-qubit experiment
    rb_pattern = [[0, 1]]    # 2-qubit experiment
    ]] *)
Definition rb_pattern_1q : list (list nat) := [[0%nat]].
Definition rb_pattern_2q : list (list nat) := [[0%nat; 1%nat]].

(** The number of qubits benchmarked together by a pattern. *)
Definition n_qubits (rb_pattern : list (list nat)) : nat :=
  match rb_pattern with
  | [] => 0
  | group :: _ => length group
  end.

(** [EPC = (2^n - 1) / 2^n * (1 - alpha)] *)
Definition EPC (n : nat) (alpha : R) : R :=
  ((2 ^ n - 1) / 2 ^ n * (1 - alpha))%R.

End RB.

(** ** An instance of the SDK calls

    A small implementation of the two Qiskit calls, used to run the
    functions above on concrete job results.  A result holds, per
    experiment, the counts over the whole register.  [marginal_counts]
    follows what Qiskit does on a dictionary: the number of classical bits
    is the length of the first key ([StopIteration] on an empty
    dictionary); when the indices are all the bits the counts are returned
    as they are; indices that are empty or out of range raise
    [QiskitError]; otherwise the indices are sorted in descending order
    (bit [idx] is the [idx]-th character from the right), every bitstring
    is cut down to the chosen bits and the counts that fall on the same key
    are added up.  Keys are taken without spaces or underscores. *)

Module SdkExample.

Definition Result : Type := list Counts.

Definition get_counts (result : Result) (idx : nat) : outcome Counts :=
  match result !! idx with
  | Some counts => Returns counts
  | None => Raises (OtherError "QiskitError")
  end.

Definition key_bit (key : string) (idx : nat) : option Ascii.ascii :=
  rev (String.list_ascii_of_string key) !! idx.

Fixpoint marginal_key (key : string) (indices : list nat) : option string :=
  match indices with
  | [] => Some String.EmptyString
  | idx :: rest =>
      match key_bit key idx, marginal_key key rest with
      | Some b, Some s => Some (String.String b s)
      | _, _ => None
      end
  end.

Definition add_count (acc : outcome Counts) (kv : string * Z)
    (indices : list nat) : outcome Counts :=
  let! new_counts := acc in
  match marginal_key kv.1 indices with
  | Some new_key =>
      Returns (<[new_key := dict_get new_counts new_key 0 + kv.2]> new_counts)
  | None => Raises IndexError
  end.

Definition sorted_descending (indices : list nat) : list nat :=
  merge_sort (H := fun a b => decide (b <= a)%nat)
    (fun a b => (b <= a)%nat) indices.

Definition marginal_counts (counts : Counts) (indices : list nat)
    : outcome Counts :=
  match map_to_list counts with
  | [] => Raises (OtherError "StopIteration")
  | (first_key, _) :: _ =>
      let num_clbits := String.length first_key in
      if bool_decide ((list_to_set indices : gset nat)
                      = list_to_set (seq 0 num_clbits))
      then Returns counts
      else if bool_decide (indices = []
                           \/ Exists (fun idx => (num_clbits <= idx)%nat) indices)
      then Raises (OtherError "QiskitError")
      else foldl (fun acc kv => add_count acc kv (sorted_descending indices))
                 (Returns ∅) (map_to_list counts)
  end.

(** The same two calls over the store: each allocates the dictionary it
    returns and writes nothing else. *)
Definition alloc (o : Store.object Result) : Store.M Result Store.loc :=
  fun h => let l := fresh (dom h) in (Returns l, <[l := o]> h).

Definition store_get_counts (result : Store.loc) (idx : nat)
    : Store.M Result Store.loc :=
  fun h =>
    match h !! result with
    | Some (Store.ResultObj r) =>
        match get_counts r idx with
        | Returns counts => alloc (Store.DictObj counts) h
        | Raises e => (Raises e, h)
        end
    | _ => (Raises (OtherError "AttributeError"), h)
    end.

Definition store_marginal_counts (counts : Store.loc) (indices : list nat)
    : Store.M Result Store.loc :=
  fun h =>
    match h !! counts with
    | Some (Store.DictObj d) =>
        match marginal_counts d indices with
        | Returns d' => alloc (Store.DictObj d') h
        | Raises e => (Raises e, h)
        end
    | _ => (Raises (OtherError "TypeError"), h)
    end.

(** A variant of [marginal_counts] over the store that works in place: it
    overwrites the dictionary it is given and returns it. *)
Definition store_marginal_counts_inplace (counts : Store.loc)
    (indices : list nat) : Store.M Result Store.loc :=
  fun h =>
    match h !! counts with
    | Some (Store.DictObj d) =>
        match marginal_counts d indices with
        | Returns d' => (Returns counts, <[counts := Store.DictObj d']> h)
        | Raises e => (Raises e, h)
        end
    | _ => (Raises (OtherError "TypeError"), h)
    end.

(** A two-qubit job in which every experiment returned the same counts:
    qubit 0 was read as 1 in 3 shots of 4. *)
Definition shot_counts : Counts :=
  {[ "00" := 1; "01" := 2; "11" := 1 ]}.

(** The counts of qubit 0 alone. *)
Definition q0_counts : Counts := {[ "0" := 1; "1" := 3 ]}.

Definition ir_result : Result := replicate n_exps shot_counts.

(** A job whose experiment 2 recorded no shot: its only entry has count 0. *)
Definition no_shot_counts : Counts := {[ "00" := 0 ]}.

Definition empty_result : Result :=
  <[2%nat := no_shot_counts]> ir_result.

Definition q0 : Qubit := mkQubit 0.
Definition q1 : Qubit := mkQubit 1.

(** A store holding the job result at location 1 and a counts dictionary
    at location 2. *)
Definition store0 : Store.heap Result :=
  {[ 1%positive := Store.ResultObj ir_result;
     2%positive := Store.DictObj shot_counts ]}.

(** A fit that returns the initial guess and the model curve on it. *)
Definition fit_function : fit_function_impl :=
  fun x_values y_values function init_params =>
    Returns (init_params,
             map (fun x => function x (List.nth 0 init_params 0%R)) x_values).

End SdkExample.

(** ** The rest of the analysis cell

    [[
    fig, axs = plt.subplots(int(min(np.ceil(len(chip.qubits)/2), 1)), 2)
    axs.reshape(-1)

    for qubit, ax in zip(chip.qubits, axs):
        prob1_data = extract_prob1_data(ir_result, qubit)
        scaled_delays = delays * 1e6
        t1, y_fit = fit_t1(scaled_delays, prob1_data)
        ...
        qubit.attrs.t1 = t1*1e-6
    ]]
    The plotting calls on [ax] and the [print] are left out.  [axs] is
    whatever [plt.subplots] returned, as the list of axes the loop iterates
    over; the result of [axs.reshape(-1)] is dropped by the notebook. *)

(** The number of rows asked of [plt.subplots]. *)
Definition subplot_rows (n_qubits : nat) : Z :=
  Z.min (Qceiling (inject_Z (Z.of_nat n_qubits) / 2)) 1.

(** [delays * 1e6] and [t1*1e-6]. *)
Definition scale_to_us (d : R) : R := (d * 10 ^ 6)%R.
Definition scale_to_s (t : R) : R := (t * / 10 ^ 6)%R.

Section AnalysisCell.

Variable Result : Type.
Variable get_counts : Result -> nat -> outcome Counts.
Variable marginal_counts : Counts -> list nat -> outcome Counts.
Variable ir_result : Result.
Variable Axes : Type.
Variable fit_function : fit_function_impl.

(** The loop over [zip(chip.qubits, axs)], run against [fit_function].
    [attrs_t1] holds [qubit.attrs.t1] of the qubits that have one, by
    position in [chip.qubits]; [pos] is the position of the first qubit of
    [pairs].  The result is the calls of [fit_function] made, in order, the
    attributes as the loop leaves them, and how the loop ended: the first
    exception ends it, with the attributes written so far. *)
Fixpoint fit_qubits (pairs : list (Qubit * Axes)) (pos : nat)
    (attrs_t1 : gmap nat R) : list fit_call * gmap nat R * outcome unit :=
  match pairs with
  | [] => ([], attrs_t1, Returns tt)
  | (qubit, ax) :: rest =>
      match run fit_function
              (analyse_qubit Result get_counts marginal_counts ir_result qubit)
      with
      | (calls, Returns (t1, y_fit)) =>
          let '(calls', attrs_t1', out) :=
            fit_qubits rest (S pos) (<[pos := scale_to_s t1]> attrs_t1) in
          (calls ++ calls', attrs_t1', out)
      | (calls, Raises e) => (calls, attrs_t1, Raises e)
      end
  end.

Definition analysis_cell (qubits : list Qubit) (axs : list Axes)
    (attrs_t1 : gmap nat R) : list fit_call * gmap nat R * outcome unit :=
  fit_qubits (zip qubits axs) 0 attrs_t1.

End AnalysisCell.

(** ** The optimisation notebook, continued *)

Module QP.

(** [[
    def plot_result(G, x):
        colors = ['r' if x[i] == 0 else 'b' for i in range(n)]
        ...
    ]]
    The list of node colours handed to [nx.draw_networkx]. *)
Definition color (xi : Z) : string := if decide (xi = 0) then "r" else "b".

Fixpoint colors_over (range : list nat) (x : list Z) : outcome (list string) :=
  match range with
  | [] => Returns []
  | i :: rest =>
      match x !! i with
      | Some xi => let! cs := colors_over rest x in Returns (color xi :: cs)
      | None => Raises IndexError
      end
  end.

Definition colors (x : list Z) : outcome (list string) :=
  colors_over (seq 0 MaxCut.n) x.

(** [[
    b = 2
    mdl.add_constraint(mdl.sum(x) == b)
    ]] *)
Definition b : Z := 2.

Definition sum_x (x : list Z) : Z := foldr Z.add 0 x.

Definition constraint (x : list Z) : bool := bool_decide (sum_x x = b).

(** [LinearEqualityToPenalty(penalty=M).convert(qp)], as the notebook
    describes it: the constraint [sum_i a_i x_i = b] is added to the
    objective in the form [M (b - sum_i a_i x_i)^2]; the problem is a
    maximisation, so the term is subtracted. *)
Definition penalty_term (M : Q) (x : list Z) : Q :=
  (M * inject_Z ((b - sum_x x) ^ 2))%Q.

Definition penalized_objective (M : Q) (x : list Z) : outcome Q :=
  let! value := MaxCut.objective x in
  Returns (value - penalty_term M x)%Q.

(** The substitution [x_i = (1 - z_i)/2], [z_i] in [{-1, +1}], of the
    mapping to an Ising Hamiltonian, and its inverse. *)
Definition x_of_z (z : Z) : Q := ((1 - inject_Z z) / 2)%Q.
Definition z_of_x (x : Z) : Z := 1 - 2 * x.

(** The other side of the cut: every node changes partition. *)
Definition complement (x : list Z) : list Z := map (fun xi => 1 - xi) x.

(** All assignments of [k] binary variables. *)
Fixpoint assignments (k : nat) : list (list Z) :=
  match k with
  | O => [[]]
  | S k' => map (cons 0) (assignments k') ++ map (cons 1) (assignments k')
  end.

(** Whether the objective returns a value at or below [bound] on [x]. *)
Definition objective_at_most (bound : Q) (x : list Z) : bool :=
  match MaxCut.objective x with
  | Returns value => Qle_bool value bound
  | Raises _ => false
  end.

End QP.

(** ** Randomized benchmarking, continued *)

Module RBRun.

(** The survival probability that the results are fitted to:
    [A * alpha^m + B], with [m] the Clifford length. *)
Definition survival (A alpha B : R) (m : nat) : R := (A * alpha ^ m + B)%R.

Section Execution.

(** What Qiskit works on, and the two calls of the loop:
    [qiskit.transpile(rb_circ_seed, basis_gates=basis_gates)] and
    [qiskit.execute(rb_circ_transpile, ...)] followed by [job.result()]. *)
Variable Circuit Transpiled JobResult : Type.
Variable transpile : list Circuit -> outcome Transpiled.
Variable execute_result : Transpiled -> outcome JobResult.

(** The two lists the loop appends to. *)
Record lists : Type := mkLists {
  result_list : list JobResult;
  transpile_list : list Transpiled
}.

(** [[
    result_list = []
    transpile_list = []
    for rb_seed,rb_circ_seed in enumerate(rb_circs):
        rb_circ_transpile = qiskit.transpile(rb_circ_seed, basis_gates=basis_gates)
        job = qiskit.execute(rb_circ_transpile, ...)
        result_list.append(job.result())
        transpile_list.append(rb_circ_transpile)
    ]]
    An exception ends the loop; the lists keep what was appended before. *)
Fixpoint execute_seeds (rb_circs : list (list Circuit)) (st : lists)
    : lists * outcome unit :=
  match rb_circs with
  | [] => (st, Returns tt)
  | rb_circ_seed :: rest =>
      match transpile rb_circ_seed with
      | Raises e => (st, Raises e)
      | Returns rb_circ_transpile =>
          match execute_result rb_circ_transpile with
          | Raises e => (st, Raises e)
          | Returns res =>
              execute_seeds rest
                (mkLists (result_list st ++ [res])
                         (transpile_list st ++ [rb_circ_transpile]))
          end
      end
  end.

Definition execute_all (rb_circs : list (list Circuit)) : lists * outcome unit :=
  execute_seeds rb_circs (mkLists [] []).

End Execution.

End RBRun.

(** ** The analysis of one qubit over the store, and what is asked of the SDK *)

Module StoreFit.

Section Objects.

Variable ResultData : Type.
Variable get_counts : Store.loc -> nat -> Store.M ResultData Store.loc.
Variable marginal_counts : Store.loc -> list nat -> Store.M ResultData Store.loc.
Variable ir_result : Store.loc.
Variable fit_function : fit_function_impl.

(** The body of the analysis loop, as [analyse_qubit] above.  The fit is
    handed the two arrays, which are new arrays of numbers, and no object
    of the store. *)
Definition analyse_qubit (qubit : Qubit) : Store.M ResultData (R * list R) :=
  Store.bind
    (Store.extract_prob1_data ResultData get_counts marginal_counts ir_result
       ir_result qubit)
    (fun prob1_data =>
       Store.lift
         (run fit_function
            (fit_t1 (map scale_to_us delays) (map Q2R prob1_data))).2).

(** The computation returns an object that did not exist before. *)
Definition returns_fresh (m : Store.M ResultData Store.loc) : Prop :=
  forall (h h' : Store.heap ResultData) (l : Store.loc),
    m h = (Returns l, h') -> h !! l = None.

(** The computation changes no object other than the one at [c]. *)
Definition writes_only {A : Type} (c : Store.loc) (m : Store.M ResultData A)
    : Prop :=
  forall (h : Store.heap ResultData) (l : Store.loc)
         (o : Store.object ResultData),
    l <> c -> h !! l = Some o -> (m h).2 !! l = Some o.

End Objects.

Arguments returns_fresh {ResultData} m.
Arguments writes_only {ResultData A} c m.

End StoreFit.

(** ** The model function on doubles

    [inversion_recovery_function] as Python evaluates it on floats:
    [-tau/t1] is an IEEE binary64 division, which raises
    [ZeroDivisionError] when [t1] is zero, and [np.exp] maps a double to a
    double.  What [np.exp] returns is left open: [np_exp] is any function
    on doubles. *)

Module F64.

Definition inversion_recovery_function
    (np_exp : PrimFloat.float -> PrimFloat.float)
    (tau t1 : PrimFloat.float) : outcome PrimFloat.float :=
  if PrimFloat.eqb t1 PrimFloat.zero then Raises ZeroDivisionError
  else Returns (np_exp (PrimFloat.div (PrimFloat.opp tau) t1)).

(** The decay property for the decay constant [t1], read on doubles: the
    value at delay 0 is 1, the values decrease strictly with the delay on
    [tau >= 0], and they lie in (0, 1]. *)
Definition decay_claim (np_exp : PrimFloat.float -> PrimFloat.float)
    (t1 : PrimFloat.float) : Prop :=
  inversion_recovery_function np_exp PrimFloat.zero t1 = Returns PrimFloat.one
  /\ (forall tau tau' v v' : PrimFloat.float,
        PrimFloat.leb PrimFloat.zero tau = true ->
        PrimFloat.ltb tau tau' = true ->
        inversion_recovery_function np_exp tau t1 = Returns v ->
        inversion_recovery_function np_exp tau' t1 = Returns v' ->
        PrimFloat.ltb v' v = true)
  /\ (forall tau v : PrimFloat.float,
        PrimFloat.leb PrimFloat.zero tau = true ->
        inversion_recovery_function np_exp tau t1 = Returns v ->
        PrimFloat.ltb PrimFloat.zero v = true
        /\ PrimFloat.leb v PrimFloat.one = true).

(** The position of a non-negative finite double among the non-negative
    finite doubles, counted from 0 for zero: the subnormal numbers have
    exponent -1074 and a mantissa below 2^52, the normal ones a mantissa
    from 2^52 to 2^53 - 1. *)
Definition rank (x : SpecFloat.spec_float) : Z :=
  match x with
  | SpecFloat.S754_zero _ => 0
  | SpecFloat.S754_finite false m e => (e + 1074) * 2 ^ 52 + Zpos m
  | _ => -1
  end.

Definition nonneg_finite (x : SpecFloat.spec_float) : Prop :=
  match x with
  | SpecFloat.S754_zero _ => True
  | SpecFloat.S754_finite false _ _ => True
  | _ => False
  end.

(** The non-negative finite double at a given position. *)
Definition unrank (k : Z) : SpecFloat.spec_float :=
  if k =? 0 then SpecFloat.S754_zero false
  else if k <? 4503599627370496
  then SpecFloat.S754_finite false (Z.to_pos k) (-1074)
  else SpecFloat.S754_finite false
         (Z.to_pos (k mod 4503599627370496 + 4503599627370496))
         (k / 4503599627370496 - 1075).

Definition float_of_rank (k : Z) : PrimFloat.float :=
  FloatOps.SF2Prim (unrank k).

(** The position of 1.0: there are [rank_one] doubles in (0, 1]. *)
Definition rank_one : Z := 1023 * 4503599627370496.

End F64.

(** * Properties *)

(** ** Sanity checks on concrete inputs *)

Example marginal_counts_q0 :
  SdkExample.marginal_counts SdkExample.shot_counts [0%nat]
  = Returns SdkExample.q0_counts.
Proof. vm_compute. reflexivity. Qed.

Example marginal_counts_q1 :
  SdkExample.marginal_counts SdkExample.shot_counts [1%nat]
  = Returns {[ "0" := 3; "1" := 1 ]}.
Proof. vm_compute. reflexivity. Qed.

Example marginal_counts_empty :
  SdkExample.marginal_counts ∅ [0%nat] = Raises (OtherError "StopIteration").
Proof. reflexivity. Qed.

Example marginal_counts_out_of_range :
  SdkExample.marginal_counts SdkExample.shot_counts [2%nat]
  = Raises (OtherError "QiskitError").
Proof. vm_compute. reflexivity. Qed.

Example marginal_counts_all_bits :
  SdkExample.marginal_counts SdkExample.shot_counts [0%nat; 1%nat]
  = Returns SdkExample.shot_counts.
Proof. vm_compute. reflexivity. Qed.

Example marginal_counts_sorts :
  SdkExample.marginal_counts {[ "001" := 5; "100" := 7 ]} [0%nat; 2%nat]
  = Returns {[ "01" := 5; "10" := 7 ]}.
Proof. vm_compute. reflexivity. Qed.

Example marginal_counts_no_shot :
  SdkExample.marginal_counts SdkExample.no_shot_counts [0%nat]
  = Returns {[ "0" := 0 ]}.
Proof. vm_compute. reflexivity. Qed.

Example calc_prob1_three_of_four :
  calc_prob1 SdkExample.q0_counts = Returns (3 # 4)%Q.
Proof. vm_compute. reflexivity. Qed.

Example calc_prob1_no_shots :
  calc_prob1 ∅ = Raises ZeroDivisionError.
Proof. reflexivity. Qed.

Example extract_prob1_data_q0 :
  extract_prob1_data SdkExample.Result SdkExample.get_counts
    SdkExample.marginal_counts SdkExample.ir_result SdkExample.ir_result
    SdkExample.q0
  = Returns (replicate n_exps (3 # 4)%Q).
Proof. vm_compute. reflexivity. Qed.

(** ** Outcomes *)

Lemma obind_returns {A B : Type} (m : outcome A) (k : A -> outcome B) (b : B) :
  obind m k = Returns b <-> exists a, m = Returns a /\ k a = Returns b.
Proof.
  destruct m as [a|e]; simpl; split.
  - intros H. exists a. split; [reflexivity | exact H].
  - intros (a' & Ha & Hk). congruence.
  - discriminate.
  - intros (a' & Ha & _). discriminate.
Qed.

Lemma obind_raises {A B : Type} (m : outcome A) (k : A -> outcome B)
    (e : exception) :
  obind m k = Raises e
  <-> m = Raises e \/ exists a, m = Returns a /\ k a = Raises e.
Proof.
  destruct m as [a|e']; simpl; split.
  - intros H. right. exists a. split; [reflexivity | exact H].
  - intros [H | (a' & Ha & Hk)]; congruence.
  - intros H. left. congruence.
  - intros [H | (a' & Ha & _)]; [congruence | discriminate].
Qed.

Lemma not_raises_returns {A : Type} (m : outcome A) :
  ~ raises m <-> exists a, m = Returns a.
Proof.
  destruct m as [a|e]; simpl; split.
  - intros _. exists a. reflexivity.
  - intros _ H. exact H.
  - intros H. destruct H. exact I.
  - intros [a H]. discriminate.
Qed.

(** ** True division and [calc_prob1] *)

Lemma true_div_returns (a b : Z) :
  b <> 0 -> true_div a b = Returns (inject_Z a / inject_Z b)%Q.
Proof.
  intros Hb. unfold true_div. destruct (decide (b = 0)); [contradiction | reflexivity].
Qed.

Lemma true_div_raises (a b : Z) (e : exception) :
  true_div a b = Raises e <-> e = ZeroDivisionError /\ b = 0.
Proof.
  unfold true_div. destruct (decide (b = 0)) as [Hb|Hb]; split.
  - intros H. inversion H. split; [reflexivity | exact Hb].
  - intros [-> _]. reflexivity.
  - discriminate.
  - intros [_ H]. contradiction.
Qed.

Lemma dict_get_nonneg (counts : Counts) (key : string) :
  counts_wf counts -> 0 <= dict_get counts key 0.
Proof.
  intros Hwf. unfold dict_get.
  destruct (counts !! key) as [v|] eqn:Hk; simpl; [| lia].
  exact (Hwf key v Hk).
Qed.

(** A share [a / (b + a)] of non-negative counts lies between 0 and 1. *)
Lemma share_bounds (a b : Z) :
  0 <= a -> 0 <= b -> 0 < b + a ->
  (0 <= inject_Z a / inject_Z (b + a) <= 1)%Q.
Proof.
  intros Ha Hb Hpos.
  assert (Hden : (0 < inject_Z (b + a))%Q).
  { change 0%Q with (inject_Z 0). rewrite <- Zlt_Qlt. exact Hpos. }
  split.
  - apply Qle_shift_div_l; [exact Hden |].
    rewrite Qmult_0_l. change 0%Q with (inject_Z 0). rewrite <- Zle_Qle. exact Ha.
  - apply Qle_shift_div_r; [exact Hden |].
    rewrite Qmult_1_l. rewrite <- Zle_Qle. lia.
Qed.

(** The two shares add up to one. *)
Lemma shares_add_up (a b : Z) :
  b + a <> 0 ->
  (inject_Z a / inject_Z (b + a) == 1 - inject_Z b / inject_Z (b + a))%Q.
Proof.
  intros Hne.
  assert (Hq : ~ (inject_Z (b + a) == 0)%Q).
  { change 0%Q with (inject_Z 0). rewrite inject_Z_injective. exact Hne. }
  rewrite inject_Z_plus in *. field. exact Hq.
Qed.

(** C2. For a counts dictionary with non-negative values and at least one
    shot on '0' or '1', [calc_prob1] returns (no exception) the number
    [counts.get('1',0) / (counts.get('0',0) + counts.get('1',0))], and this
    number lies in the closed interval [0, 1]. *)
Theorem calc_prob1_ratio (counts : Counts) :
  counts_wf counts ->
  0 < dict_get counts "0" 0 + dict_get counts "1" 0 ->
  exists p : Q,
    calc_prob1 counts = Returns p
    /\ p = (inject_Z (dict_get counts "1" 0)
            / inject_Z (dict_get counts "0" 0 + dict_get counts "1" 0))%Q
    /\ (0 <= p <= 1)%Q.
Proof.
  intros Hwf Hpos. eexists. split; [| split; [reflexivity |]].
  - unfold calc_prob1. apply true_div_returns. lia.
  - apply share_bounds; [apply dict_get_nonneg | apply dict_get_nonneg |]; assumption.
Qed.

Lemma q0_counts_wf : counts_wf SdkExample.q0_counts.
Proof.
  unfold counts_wf, SdkExample.q0_counts. apply map_Forall_insert_2; [lia |].
  apply map_Forall_singleton. lia.
Qed.

Lemma calc_prob1_ratio_witness :
  exists p : Q,
    calc_prob1 SdkExample.q0_counts = Returns p
    /\ p = (inject_Z (dict_get SdkExample.q0_counts "1" 0)
            / inject_Z (dict_get SdkExample.q0_counts "0" 0
                        + dict_get SdkExample.q0_counts "1" 0))%Q
    /\ (0 <= p <= 1)%Q.
Proof.
  apply (calc_prob1_ratio SdkExample.q0_counts).
  - exact q0_counts_wf.
  - vm_compute. reflexivity.
Defined.

(** C8. [calc_prob1] depends only on the '0' and '1' entries of its
    argument: two dictionaries that agree on them (an absent key counting
    as 0) give the same result, and an entry under any other key, such as a
    full-register bitstring, changes neither the numerator nor the
    denominator. *)
Theorem calc_prob1_only_0_and_1 :
  (forall c1 c2 : Counts,
      dict_get c1 "0" 0 = dict_get c2 "0" 0 ->
      dict_get c1 "1" 0 = dict_get c2 "1" 0 ->
      calc_prob1 c1 = calc_prob1 c2)
  /\ (forall (counts : Counts) (key : string) (v : Z),
        key <> "0" -> key <> "1" ->
        calc_prob1 (<[key := v]> counts) = calc_prob1 counts
        /\ calc_prob1 (delete key counts) = calc_prob1 counts).
Proof.
  assert (Hagree : forall c1 c2 : Counts,
             dict_get c1 "0" 0 = dict_get c2 "0" 0 ->
             dict_get c1 "1" 0 = dict_get c2 "1" 0 ->
             calc_prob1 c1 = calc_prob1 c2).
  { intros c1 c2 H0 H1. unfold calc_prob1. rewrite H0, H1. reflexivity. }
  split; [exact Hagree |].
  intros counts key v Hk0 Hk1. split; apply Hagree; unfold dict_get.
  - rewrite lookup_insert_ne by exact Hk0. reflexivity.
  - rewrite lookup_insert_ne by exact Hk1. reflexivity.
  - rewrite lookup_delete_ne by exact Hk0. reflexivity.
  - rewrite lookup_delete_ne by exact Hk1. reflexivity.
Qed.

Lemma calc_prob1_only_0_and_1_witness :
  calc_prob1 (<["01" := 2]> SdkExample.q0_counts)
  = calc_prob1 SdkExample.q0_counts
  /\ calc_prob1 (delete "01" SdkExample.q0_counts)
     = calc_prob1 SdkExample.q0_counts.
Proof.
  apply (proj2 calc_prob1_only_0_and_1 SdkExample.q0_counts "01" 2);
    discriminate.
Defined.

(** ** The extraction loop *)

Section ProbDataFacts.

Variable Result : Type.
Variable get_counts : Result -> nat -> outcome Counts.
Variable marginal_counts : Counts -> list nat -> outcome Counts.
Variable ir_result : Result.

Let step := extract_step Result get_counts marginal_counts ir_result.
Let prob1 := prob1_of_exp Result get_counts marginal_counts ir_result.
Let extract := extract_prob1_data Result get_counts marginal_counts ir_result.

Lemma extract_step_prob1 (qubit : Qubit) (exp : nat) (prob_1s : list Q) :
  step qubit exp prob_1s
  = let! prob_1 := prob1 qubit exp in Returns (<[exp := prob_1]> prob_1s).
Proof.
  unfold step, prob1, extract_step, prob1_of_exp.
  destruct (get_qubit_counts Result get_counts marginal_counts qubit
              ir_result exp); reflexivity.
Qed.

(** The loop raises exactly what its first failing experiment raises. *)
Lemma loop_raises (qubit : Qubit) (e : exception) (len start : nat)
    (prob_1s : list Q) :
  for_each (seq start len) (step qubit) prob_1s = Raises e
  <-> exists exp : nat,
        (start <= exp < start + len)%nat
        /\ (forall j : nat, (start <= j < exp)%nat -> ~ raises (prob1 qubit j))
        /\ prob1 qubit exp = Raises e.
Proof.
  revert start prob_1s. induction len as [|len IH]; intros start prob_1s; simpl.
  - split; [discriminate |]. intros (exp & Hexp & _). lia.
  - rewrite extract_step_prob1.
    destruct (prob1 qubit start) as [p|e'] eqn:Hstart; simpl.
    + rewrite IH. split.
      * intros (exp & Hexp & Hbefore & Hraise). exists exp.
        split; [lia |]. split; [| exact Hraise].
        intros j Hj. destruct (decide (j = start)) as [->|Hne].
        -- rewrite Hstart. simpl. tauto.
        -- apply Hbefore. lia.
      * intros (exp & Hexp & Hbefore & Hraise).
        destruct (decide (exp = start)) as [->|Hne]; [congruence |].
        exists exp. split; [lia |]. split; [| exact Hraise].
        intros j Hj. apply Hbefore. lia.
    + split.
      * intros H. exists start. split; [lia |]. split; [intros j Hj; lia |].
        congruence.
      * intros (exp & Hexp & Hbefore & Hraise).
        destruct (decide (exp = start)) as [->|Hne]; [congruence |].
        exfalso. apply (Hbefore start); [lia |]. rewrite Hstart. exact I.
Qed.

(** When the loop returns, the array has kept its length, holds at every
    visited index what was computed for that experiment, and is unchanged
    elsewhere. *)
Lemma loop_returns (qubit : Qubit) (len start : nat)
    (prob_1s data : list Q) :
  for_each (seq start len) (step qubit) prob_1s = Returns data ->
  length data = length prob_1s
  /\ (forall exp : nat, (start <= exp < start + len)%nat ->
        exists p : Q, prob1 qubit exp = Returns p
                      /\ ((exp < length prob_1s)%nat -> data !! exp = Some p))
  /\ (forall i : nat, ~ (start <= i < start + len)%nat ->
        data !! i = prob_1s !! i).
Proof.
  revert start prob_1s. induction len as [|len IH]; intros start prob_1s; simpl.
  - intros H. inversion H; subst. split; [reflexivity |].
    split; [intros exp Hexp; lia | reflexivity].
  - rewrite extract_step_prob1.
    destruct (prob1 qubit start) as [p|e'] eqn:Hstart; simpl; [| discriminate].
    intros H. apply IH in H. destruct H as (Hlen & Hin & Hout).
    rewrite length_insert in Hlen. split; [exact Hlen |]. split.
    + intros exp Hexp. destruct (decide (exp = start)) as [->|Hne].
      * exists p. split; [exact Hstart |]. intros Hlt.
        rewrite Hout by lia. apply list_lookup_insert_eq. exact Hlt.
      * destruct (Hin exp) as (p' & Hp' & Hdata); [lia |].
        exists p'. split; [exact Hp' |]. intros Hlt. apply Hdata.
        rewrite length_insert. exact Hlt.
    + intros i Hi. rewrite Hout by lia.
      apply list_lookup_insert_ne. lia.
Qed.

Lemma extract_raises (result : Result) (qubit : Qubit) (e : exception) :
  extract result qubit = Raises e
  <-> exists exp : nat,
        (exp < n_exps)%nat
        /\ (forall j : nat, (j < exp)%nat -> ~ raises (prob1 qubit j))
        /\ prob1 qubit exp = Raises e.
Proof.
  unfold extract, extract_prob1_data. fold step. rewrite loop_raises. split.
  - intros (exp & Hexp & Hbefore & Hraise). exists exp.
    split; [lia |]. split; [| exact Hraise]. intros j Hj. apply Hbefore. lia.
  - intros (exp & Hexp & Hbefore & Hraise). exists exp.
    split; [lia |]. split; [| exact Hraise]. intros j Hj. apply Hbefore. lia.
Qed.

Lemma extract_returns (result : Result) (qubit : Qubit) (data : list Q) :
  extract result qubit = Returns data ->
  length data = n_exps
  /\ forall exp : nat, (exp < n_exps)%nat ->
       exists p : Q, prob1 qubit exp = Returns p /\ data !! exp = Some p.
Proof.
  unfold extract, extract_prob1_data. fold step. intros H.
  apply loop_returns in H. destruct H as (Hlen & Hin & _).
  rewrite length_replicate in Hlen. split; [exact Hlen |].
  intros exp Hexp. destruct (Hin exp) as (p & Hp & Hdata); [lia |].
  exists p. split; [exact Hp |]. apply Hdata. rewrite length_replicate. exact Hexp.
Qed.

Lemma prob1_returns (qubit : Qubit) (exp : nat) (p : Q) :
  prob1 qubit exp = Returns p
  <-> exists counts : Counts,
        get_qubit_counts Result get_counts marginal_counts qubit ir_result exp
        = Returns counts
        /\ calc_prob1 counts = Returns p.
Proof. unfold prob1, prob1_of_exp. apply obind_returns. Qed.

End ProbDataFacts.

(** ** Fitting *)

Lemma run_fit_t1 (fit_function : fit_function_impl) (delays' prob1_data : list R) :
  run fit_function (fit_t1 delays' prob1_data)
  = ([mkFitCall delays' prob1_data inversion_recovery_function [100%R]],
     let! fitted := fit_function delays' prob1_data
                      inversion_recovery_function [100%R] in
     match fitted.1 !! 0%nat with
     | Some t1 => Returns (t1, fitted.2)
     | None => Raises IndexError
     end).
Proof.
  unfold fit_t1. simpl.
  destruct (fit_function delays' prob1_data inversion_recovery_function [100%R])
    as [[fit_params y_fit]|e]; simpl; [| reflexivity].
  destruct (fit_params !! 0%nat); reflexivity.
Qed.

Lemma model_is_exponential_decay (tau t1 : R) :
  inversion_recovery_function tau t1 = exp (- (tau / t1)).
Proof.
  unfold inversion_recovery_function. f_equal. unfold Rdiv.
  rewrite Ropp_mult_distr_l. reflexivity.
Qed.

Section Pipeline.

Variable Result : Type.
Variable get_counts : Result -> nat -> outcome Counts.
Variable marginal_counts : Counts -> list nat -> outcome Counts.
Variable ir_result : Result.

Let prob1 := prob1_of_exp Result get_counts marginal_counts ir_result.
Let qubit_counts := get_qubit_counts Result get_counts marginal_counts.
Let extract := extract_prob1_data Result get_counts marginal_counts ir_result.
Let analyse := analyse_qubit Result get_counts marginal_counts ir_result.

(** C1, as amended.  The model function returns [e^(-tau/t1)] for every
    [tau] and [t1].  The data array that the analysis hands to the fit,
    together with this model, has one entry per experiment, and the entry
    of experiment [i] is the share of outcome 1 in that experiment's
    counts, [counts.get('1',0) / (counts.get('0',0) + counts.get('1',0))]:
    one minus the probability of outcome 0. *)
Theorem fit_data_is_share_of_ones (fit_function : fit_function_impl)
    (result : Result) (qubit : Qubit) (data : list Q) :
  extract result qubit = Returns data ->
  (forall tau t1 : R, inversion_recovery_function tau t1 = exp (- (tau / t1)))
  /\ length data = n_exps
  /\ (forall i : nat, (i < n_exps)%nat ->
        exists counts : Counts,
          qubit_counts qubit ir_result i = Returns counts
          /\ dict_get counts "0" 0 + dict_get counts "1" 0 <> 0
          /\ data !! i
             = Some (inject_Z (dict_get counts "1" 0)
                     / inject_Z (dict_get counts "0" 0 + dict_get counts "1" 0))%Q
          /\ exists p0 : Q,
               spec_prob0 counts = Returns p0
               /\ (inject_Z (dict_get counts "1" 0)
                   / inject_Z (dict_get counts "0" 0 + dict_get counts "1" 0)
                   == 1 - p0)%Q)
  /\ (run fit_function (analyse qubit)).1
     = [mkFitCall (map (fun d => d * 10 ^ 6)%R delays) (map Q2R data)
          inversion_recovery_function [100%R]].
Proof.
  intros Hdata. split; [exact model_is_exponential_decay |].
  pose proof (extract_returns Result get_counts marginal_counts ir_result
                result qubit data Hdata) as [Hlen Hentries].
  split; [exact Hlen |]. split.
  - intros i Hi. destruct (Hentries i Hi) as (p & Hp & Hlook).
    apply prob1_returns in Hp. destruct Hp as (counts & Hcounts & Hcalc).
    exists counts. split; [exact Hcounts |].
    assert (Hne : dict_get counts "0" 0 + dict_get counts "1" 0 <> 0).
    { intros Hz. unfold calc_prob1 in Hcalc. rewrite Hz in Hcalc.
      unfold true_div in Hcalc. simpl in Hcalc. discriminate. }
    split; [exact Hne |]. split.
    + rewrite Hlook. f_equal. unfold calc_prob1 in Hcalc.
      rewrite (true_div_returns _ _ Hne) in Hcalc. congruence.
    + eexists. split.
      * unfold spec_prob0. apply true_div_returns. exact Hne.
      * apply shares_add_up. exact Hne.
  - unfold analyse, analyse_qubit.
    change (extract_prob1_data Result get_counts marginal_counts ir_result
              ir_result qubit) with (extract result qubit).
    rewrite Hdata, run_fit_t1. reflexivity.
Qed.

(** C5. [calc_prob1] raises [ZeroDivisionError] exactly when
    [counts.get('0',0) + counts.get('1',0)] is zero, and raises nothing
    else; on counts that satisfy the data-model invariant this is when
    neither key carries a positive count.  [extract_prob1_data] raises
    exactly what its first failing experiment raises: nothing is caught,
    so a [ZeroDivisionError] of [calc_prob1] in the loop leaves
    [extract_prob1_data] as it is. *)
Theorem zero_division_propagates (counts : Counts) (result : Result)
    (qubit : Qubit) :
  (calc_prob1 counts = Raises ZeroDivisionError
   <-> dict_get counts "0" 0 + dict_get counts "1" 0 = 0)
  /\ (forall e : exception,
        calc_prob1 counts = Raises e -> e = ZeroDivisionError)
  /\ (counts_wf counts ->
        (dict_get counts "0" 0 + dict_get counts "1" 0 = 0
         <-> ~ 0 < dict_get counts "0" 0 /\ ~ 0 < dict_get counts "1" 0))
  /\ (forall e : exception,
        extract result qubit = Raises e
        <-> exists i : nat,
              (i < n_exps)%nat
              /\ (forall j : nat, (j < i)%nat -> ~ raises (prob1 qubit j))
              /\ prob1 qubit i = Raises e)
  /\ (forall (i : nat) (counts' : Counts),
        (i < n_exps)%nat ->
        (forall j : nat, (j < i)%nat -> ~ raises (prob1 qubit j)) ->
        qubit_counts qubit ir_result i = Returns counts' ->
        dict_get counts' "0" 0 + dict_get counts' "1" 0 = 0 ->
        extract result qubit = Raises ZeroDivisionError).
Proof.
  split; [| split; [| split; [| split]]].
  - unfold calc_prob1. rewrite true_div_raises. tauto.
  - intros e He. unfold calc_prob1 in He. apply true_div_raises in He. tauto.
  - intros Hwf.
    pose proof (dict_get_nonneg counts "0" Hwf).
    pose proof (dict_get_nonneg counts "1" Hwf). lia.
  - intros e. apply extract_raises.
  - intros i counts' Hi Hbefore Hcounts Hzero.
    apply extract_raises. exists i. split; [exact Hi |].
    split; [exact Hbefore |].
    unfold prob1, prob1_of_exp. fold qubit_counts. rewrite Hcounts. simpl.
    unfold calc_prob1. apply true_div_raises. split; [reflexivity | exact Hzero].
Qed.

End Pipeline.

(** C1, as stated, fails: on a job in which qubit 0 is read as 1 in 3 shots
    of 4, every entry of the data array is 3/4, while the probability of
    outcome 0 is 1/4. *)
Lemma fit_data_is_not_prob_of_0 :
  extract_prob1_data SdkExample.Result SdkExample.get_counts
    SdkExample.marginal_counts SdkExample.ir_result SdkExample.ir_result
    SdkExample.q0
  = Returns (replicate n_exps (3 # 4)%Q)
  /\ (let! counts := get_qubit_counts SdkExample.Result SdkExample.get_counts
                       SdkExample.marginal_counts SdkExample.q0
                       SdkExample.ir_result 0 in
      spec_prob0 counts)
     = Returns (1 # 4)%Q
  /\ ~ (3 # 4 == 1 # 4)%Q.
Proof.
  split; [vm_compute; reflexivity |].
  split; [vm_compute; reflexivity |].
  intros H. vm_compute in H. discriminate.
Qed.

Lemma fit_data_is_share_of_ones_witness :
  length (replicate n_exps (3 # 4)%Q) = n_exps
  /\ (run SdkExample.fit_function
        (analyse_qubit SdkExample.Result SdkExample.get_counts
           SdkExample.marginal_counts SdkExample.ir_result SdkExample.q0)).1
     = [mkFitCall (map (fun d => d * 10 ^ 6)%R delays)
          (map Q2R (replicate n_exps (3 # 4)%Q))
          inversion_recovery_function [100%R]].
Proof.
  pose proof (fit_data_is_share_of_ones SdkExample.Result SdkExample.get_counts
                SdkExample.marginal_counts SdkExample.ir_result
                SdkExample.fit_function SdkExample.ir_result SdkExample.q0
                (replicate n_exps (3 # 4)%Q)) as H.
  destruct H as (_ & Hlen & _ & Hcall).
  - vm_compute. reflexivity.
  - split; [exact Hlen | exact Hcall].
Defined.

Lemma zero_division_propagates_witness :
  extract_prob1_data SdkExample.Result SdkExample.get_counts
    SdkExample.marginal_counts SdkExample.empty_result SdkExample.empty_result
    SdkExample.q0
  = Raises ZeroDivisionError.
Proof.
  apply (proj2 (proj2 (proj2 (proj2
           (zero_division_propagates SdkExample.Result SdkExample.get_counts
              SdkExample.marginal_counts SdkExample.empty_result
              ∅ SdkExample.empty_result SdkExample.q0)))) 2%nat
           {[ "0" := 0 ]}).
  - vm_compute. lia.
  - intros j Hj. destruct j as [|[|j]]; [vm_compute; tauto | vm_compute; tauto | lia].
  - vm_compute. reflexivity.
  - reflexivity.
Defined.

(** C4. [fit_t1] is one call of [fit_function]: whatever [fit_function] does,
    running [fit_t1] on [(delays, prob1_data)] calls it exactly once, with
    the two arrays as they were given, the model
    [inversion_recovery_function] and the initial guess [[100]]; when the
    call returns [(fit_params, y_fit)], [fit_t1] returns
    [(fit_params[0], y_fit)], and when it raises, so does [fit_t1]. *)
Theorem fit_t1_is_one_fit_call (fit_function : fit_function_impl)
    (delays' prob1_data : list R) :
  (run fit_function (fit_t1 delays' prob1_data)).1
  = [mkFitCall delays' prob1_data inversion_recovery_function [100%R]]
  /\ (forall (t1 : R) (rest y_fit : list R),
        fit_function delays' prob1_data inversion_recovery_function [100%R]
        = Returns (t1 :: rest, y_fit) ->
        (run fit_function (fit_t1 delays' prob1_data)).2 = Returns (t1, y_fit))
  /\ (forall e : exception,
        fit_function delays' prob1_data inversion_recovery_function [100%R]
        = Raises e ->
        (run fit_function (fit_t1 delays' prob1_data)).2 = Raises e).
Proof.
  rewrite run_fit_t1. simpl. split; [reflexivity |]. split.
  - intros t1 rest y_fit Hfit. rewrite Hfit. reflexivity.
  - intros e Hfit. rewrite Hfit. reflexivity.
Qed.

Lemma fit_t1_is_one_fit_call_witness :
  (run SdkExample.fit_function (fit_t1 delays [1%R])).2
  = Returns (100%R, map (fun x => inversion_recovery_function x 100%R) delays).
Proof.
  apply (proj1 (proj2 (fit_t1_is_one_fit_call SdkExample.fit_function
                         delays [1%R])) 100%R []).
  reflexivity.
Defined.

(** ** The decay model *)

Lemma decay_argument_decreasing (t1 tau tau' : R) :
  (0 < t1)%R -> (tau < tau')%R -> (- tau' / t1 < - tau / t1)%R.
Proof.
  intros Ht1 Hlt. unfold Rdiv.
  apply Rmult_lt_compat_r; [apply Rinv_0_lt_compat; exact Ht1 | lra].
Qed.

Lemma decay_argument_nonpos (t1 tau : R) :
  (0 < t1)%R -> (0 <= tau)%R -> (- tau / t1 <= 0)%R.
Proof.
  intros Ht1 Htau. unfold Rdiv.
  assert (Hinv : (0 < / t1)%R) by (apply Rinv_0_lt_compat; exact Ht1).
  assert (Hprod : (0 <= tau * / t1)%R) by (apply Rmult_le_pos; lra).
  lra.
Qed.

(** C9, as amended.  In exact real arithmetic, for a decay constant
    [t1 > 0] the model [e^(-tau/t1)] is 1 at delay 0, strictly decreasing in
    the delay on [tau >= 0], and takes its values in (0, 1] there.  (On
    doubles the last two cannot both hold: [decay_claim_fails_on_doubles].) *)
Theorem inversion_recovery_decay (t1 : R) :
  (0 < t1)%R ->
  inversion_recovery_function 0 t1 = 1%R
  /\ (forall tau tau' : R,
        (0 <= tau)%R -> (tau < tau')%R ->
        (inversion_recovery_function tau' t1
         < inversion_recovery_function tau t1)%R)
  /\ (forall tau : R,
        (0 <= tau)%R ->
        (0 < inversion_recovery_function tau t1 <= 1)%R).
Proof.
  intros Ht1. unfold inversion_recovery_function. split; [| split].
  - replace (- 0 / t1)%R with 0%R by (unfold Rdiv; ring). apply exp_0.
  - intros tau tau' _ Hlt. apply exp_increasing.
    apply decay_argument_decreasing; assumption.
  - intros tau Htau. split; [apply exp_pos |].
    destruct (decay_argument_nonpos t1 tau Ht1 Htau) as [Hneg | Hzero].
    + left. rewrite <- exp_0. apply exp_increasing. exact Hneg.
    + right. rewrite Hzero. apply exp_0.
Qed.

Lemma inversion_recovery_decay_witness :
  (0 < 100)%R
  /\ inversion_recovery_function 0 100 = 1%R
  /\ (inversion_recovery_function 200 100
      < inversion_recovery_function 0 100)%R
  /\ (0 < inversion_recovery_function 200 100 <= 1)%R.
Proof.
  assert (Ht1 : (0 < 100)%R) by lra.
  destruct (inversion_recovery_decay 100 Ht1) as (Hzero & Hdecr & Hrange).
  split; [exact Ht1 |]. split; [exact Hzero |]. split.
  - apply Hdecr; lra.
  - apply Hrange; lra.
Defined.

(** ** Error per Clifford *)

Lemma EPC_factor_pos (n : nat) :
  (0 < n)%nat -> (0 < (2 ^ n - 1) / 2 ^ n)%R.
Proof.
  intros Hn.
  assert (Hgt : (1 < 2 ^ n)%R) by (apply Rlt_pow_R1; [lra | exact Hn]).
  apply Rdiv_lt_0_compat; lra.
Qed.

(** C6. With [EPC = (2^n - 1)/2^n * (1 - alpha)]: for the 1-qubit experiment
    of the notebook [EPC = (1 - alpha)/2], for its 2-qubit experiment
    [EPC = 3/4 * (1 - alpha)]; [EPC] is 0 at [alpha = 1], and, for one qubit
    or more, strictly decreasing in [alpha]. *)
Theorem EPC_of_decay_rate :
  (forall alpha : R,
      RB.EPC (RB.n_qubits RB.rb_pattern_1q) alpha = ((1 - alpha) / 2)%R
      /\ RB.EPC (RB.n_qubits RB.rb_pattern_2q) alpha = (3 / 4 * (1 - alpha))%R)
  /\ (forall n : nat, RB.EPC n 1 = 0%R)
  /\ (forall (n : nat) (alpha alpha' : R),
        (0 < n)%nat -> (alpha < alpha')%R ->
        (RB.EPC n alpha' < RB.EPC n alpha)%R).
Proof.
  split; [| split].
  - intros alpha. unfold RB.EPC. simpl. split; field.
  - intros n. unfold RB.EPC. ring.
  - intros n alpha alpha' Hn Hlt. unfold RB.EPC.
    apply Rmult_lt_compat_l; [apply EPC_factor_pos; exact Hn | lra].
Qed.

Lemma EPC_of_decay_rate_witness :
  (RB.EPC 1 1 < RB.EPC 1 (1 / 2))%R /\ (RB.EPC 2 1 < RB.EPC 2 (1 / 2))%R.
Proof.
  split; apply (proj2 (proj2 EPC_of_decay_rate)); try lia; lra.
Defined.

(** ** MaxCut *)

Lemma sum_cons (t : Q) (ts : list Q) : MaxCut.sum (t :: ts) = (t + MaxCut.sum ts)%Q.
Proof. reflexivity. Qed.

(** [x_i + x_j - 2 x_i x_j] on binary values: 1 when they differ, 0 when
    they are equal. *)
Lemma xor_polynomial (xi xj : Z) :
  xi = 0 \/ xi = 1 -> xj = 0 \/ xj = 1 ->
  xi + xj - 2 * xi * xj = if decide (xi = xj) then 0 else 1.
Proof.
  intros [-> | ->] [-> | ->]; reflexivity.
Qed.

Lemma objective_of_is_cut_value_of (es : list (nat * nat * Q)) (x : list Z) :
  Forall (fun v => v = 0 \/ v = 1) x ->
  MaxCut.edges_in_range es (length x) ->
  exists q : Q,
    MaxCut.objective_of es x = Returns q /\ (q == MaxCut.cut_value_of es x)%Q.
Proof.
  intros Hbin Hrange. unfold MaxCut.objective_of, MaxCut.cut_value_of.
  induction Hrange as [|[[i j] w] es [Hi Hj] Hes IH]; simpl in *.
  - exists (MaxCut.sum []). split; reflexivity.
  - destruct IH as (q & Hq & Hcut).
    destruct (lookup_lt_is_Some_2 x i Hi) as [xi Hxi].
    destruct (lookup_lt_is_Some_2 x j Hj) as [xj Hxj].
    rewrite Hxi, Hxj. simpl.
    destruct (MaxCut.objective_terms x es) as [ts|e]; simpl in *; [| discriminate].
    inversion Hq; subst q. eexists. split; [reflexivity |].
    change (MaxCut.sum (w * inject_Z (xi + xj - 2 * xi * xj) :: ts)
            == MaxCut.sum
                 (map (fun e : nat * nat * Q => e.2)
                    (filter (fun e => MaxCut.is_cut x e = true)
                       ((i, j, w) :: es))))%Q.
    rewrite sum_cons, Hcut.
    assert (Hbi : xi = 0 \/ xi = 1).
    { rewrite Forall_lookup in Hbin. exact (Hbin i xi Hxi). }
    assert (Hbj : xj = 0 \/ xj = 1).
    { rewrite Forall_lookup in Hbin. exact (Hbin j xj Hxj). }
    rewrite (xor_polynomial xi xj Hbi Hbj).
    destruct (decide (xi = xj)) as [Heq | Hne].
    + rewrite filter_cons_False.
      * change (inject_Z 0) with 0%Q. ring.
      * simpl. rewrite Hxi, Hxj, Heq.
        rewrite bool_decide_eq_false_2; [discriminate | tauto].
    + rewrite filter_cons_True.
      * rewrite map_cons, sum_cons. change (inject_Z 1) with 1%Q.
        change ((i, j, w).2) with w. ring.
      * simpl. rewrite Hxi, Hxj. apply bool_decide_eq_true_2. congruence.
Qed.

Lemma edges_within_n : MaxCut.edges_in_range MaxCut.edges MaxCut.n.
Proof.
  unfold MaxCut.edges_in_range, MaxCut.edges, MaxCut.n.
  repeat (apply Forall_cons; split; [simpl; lia |]). apply Forall_nil. exact I.
Qed.

(** C10. For every binary assignment [x] of the five decision variables, the
    MaxCut objective evaluates (no [IndexError]) to the total weight of the
    edges whose endpoints get different values; each edge contributes
    [x_i + x_j - 2 x_i x_j], which is 1 when [x_i <> x_j] and 0 when
    [x_i = x_j]. *)
Theorem objective_is_cut_value (x : list Z) :
  MaxCut.binary x ->
  (exists q : Q,
      MaxCut.objective x = Returns q /\ (q == MaxCut.cut_value x)%Q)
  /\ (forall (i j : nat) (xi xj : Z),
        x !! i = Some xi -> x !! j = Some xj ->
        xi + xj - 2 * xi * xj = if decide (xi = xj) then 0 else 1).
Proof.
  intros [Hlen Hbin]. split.
  - apply objective_of_is_cut_value_of; [exact Hbin |].
    rewrite Hlen. exact edges_within_n.
  - intros i j xi xj Hxi Hxj. rewrite Forall_lookup in Hbin.
    apply xor_polynomial; [exact (Hbin i xi Hxi) | exact (Hbin j xj Hxj)].
Qed.

Example objective_alternating :
  MaxCut.objective MaxCut.alternating = Returns 5%Q
  /\ MaxCut.cut_value MaxCut.alternating = 5%Q.
Proof. split; vm_compute; reflexivity. Qed.

Lemma binary_alternating : MaxCut.binary MaxCut.alternating.
Proof.
  split; [reflexivity |].
  repeat (apply Forall_cons; split; [lia |]). apply Forall_nil. exact I.
Qed.

Lemma objective_is_cut_value_witness :
  MaxCut.binary MaxCut.alternating
  /\ exists q : Q,
       MaxCut.objective MaxCut.alternating = Returns q
       /\ (q == MaxCut.cut_value MaxCut.alternating)%Q.
Proof.
  split; [exact binary_alternating |].
  exact (proj1 (objective_is_cut_value MaxCut.alternating binary_alternating)).
Defined.

(** ** Frame: what the counts consumers leave untouched *)

Section Frame.

Variable ResultData : Type.

Abbreviation M := (Store.M ResultData).
Abbreviation heap := (Store.heap ResultData).

Lemma read_only_ret {A : Type} (a : A) :
  Store.read_only (Store.ret (ResultData := ResultData) a).
Proof. intros h l o Hl. exact Hl. Qed.

Lemma read_only_lift {A : Type} (out : outcome A) :
  Store.read_only (Store.lift (ResultData := ResultData) out).
Proof. intros h l o Hl. exact Hl. Qed.

(** [counts.get] returns the entry, or the default, and leaves the store
    as it is. *)
Lemma get_unchanged (counts : Store.loc) (key : string) (dflt : Z) (h : heap) :
  (Store.get counts key dflt h).2 = h.
Proof.
  unfold Store.get. destruct (h !! counts) as [[d|r]|]; reflexivity.
Qed.

Lemma get_of_dict (counts : Store.loc) (key : string) (dflt : Z) (h : heap)
    (d : Counts) :
  h !! counts = Some (Store.DictObj d) ->
  Store.get counts key dflt h = (Returns (dict_get d key dflt), h).
Proof. intros Hd. unfold Store.get. rewrite Hd. reflexivity. Qed.

Lemma read_only_bind {A B : Type} (m : M A) (k : A -> M B) :
  Store.read_only m -> (forall a : A, Store.read_only (k a)) ->
  Store.read_only (Store.bind m k).
Proof.
  intros Hm Hk h l o Hl. unfold Store.bind.
  specialize (Hm h l o Hl).
  destruct (m h) as [[a|e] h']; simpl in *.
  - apply Hk. exact Hm.
  - exact Hm.
Qed.

Lemma read_only_for_each {S : Type} (range : list nat) (body : nat -> S -> M S) :
  (forall (i : nat) (s : S), Store.read_only (body i s)) ->
  forall s : S, Store.read_only (Store.for_each range body s).
Proof.
  intros Hbody. induction range as [|i rest IH]; intros s; simpl.
  - apply read_only_ret.
  - apply read_only_bind; [apply Hbody | exact IH].
Qed.

(** [calc_prob1] leaves the store exactly as it found it. *)
Lemma calc_prob1_unchanged (counts : Store.loc) (h : heap) :
  (Store.calc_prob1 counts h).2 = h.
Proof.
  unfold Store.calc_prob1, Store.bind, Store.lift, Store.get.
  destruct (h !! counts) as [[d|r]|] eqn:Hc; simpl; rewrite ?Hc; simpl;
    rewrite ?Hc; reflexivity.
Qed.

(** On a dictionary of the store, it computes what [calc_prob1] computes
    on the value of that dictionary. *)
Lemma calc_prob1_of_dict (counts : Store.loc) (h : heap) (d : Counts) :
  h !! counts = Some (Store.DictObj d) ->
  (Store.calc_prob1 counts h).1 = calc_prob1 d.
Proof.
  intros Hd. unfold Store.calc_prob1, Store.bind, Store.lift.
  rewrite !(get_of_dict counts _ _ h d Hd). reflexivity.
Qed.

Lemma calc_prob1_read_only (counts : Store.loc) :
  Store.read_only (Store.calc_prob1 (ResultData := ResultData) counts).
Proof. intros h l o Hl. rewrite calc_prob1_unchanged. exact Hl. Qed.

Variable get_counts : Store.loc -> nat -> M Store.loc.
Variable marginal_counts : Store.loc -> list nat -> M Store.loc.
Variable ir_result : Store.loc.
Variable fit_function : fit_function_impl.

(** What is assumed of the two SDK calls.  [Result.get_counts] builds the
    dictionary it returns, a new object, and changes no object that
    exists.  [marginal_counts] changes no object other than the one it is
    given; whether it changes that one is left open. *)
Hypothesis get_counts_read_only :
  forall (result : Store.loc) (idx : nat),
    Store.read_only (get_counts result idx).
Hypothesis get_counts_fresh :
  forall (result : Store.loc) (idx : nat),
    StoreFit.returns_fresh (get_counts result idx).
Hypothesis marginal_counts_writes_only :
  forall (counts : Store.loc) (indices : list nat),
    StoreFit.writes_only counts (marginal_counts counts indices).

Let qubit_counts := Store.get_qubit_counts ResultData get_counts marginal_counts.
Let step :=
  Store.extract_step ResultData get_counts marginal_counts ir_result.
Let extract :=
  Store.extract_prob1_data ResultData get_counts marginal_counts ir_result.
Let analyse :=
  StoreFit.analyse_qubit ResultData get_counts marginal_counts ir_result
    fit_function.

(** [get_qubit_counts] hands [marginal_counts] the dictionary that
    [get_counts] has just built, never an object that existed before: so
    whatever [marginal_counts] does to its argument, the objects that
    existed are as they were. *)
Lemma get_qubit_counts_read_only (qubit : Qubit) (result : Store.loc)
    (idx : nat) :
  Store.read_only (qubit_counts qubit result idx).
Proof.
  intros h l o Hl. unfold qubit_counts, Store.get_qubit_counts, Store.bind.
  pose proof (get_counts_read_only result idx h l o Hl) as Hkept.
  destruct (get_counts result idx h) as [[full|e] h1] eqn:Hcall; simpl in *.
  - pose proof (get_counts_fresh result idx h h1 full Hcall) as Hfresh.
    apply marginal_counts_writes_only; [| exact Hkept]. congruence.
  - exact Hkept.
Qed.

Lemma extract_step_read_only (qubit : Qubit) (exp : nat) (prob_1s : list Q) :
  Store.read_only (step qubit exp prob_1s).
Proof.
  unfold step, Store.extract_step.
  apply read_only_bind; [apply get_qubit_counts_read_only |]. intros c.
  apply read_only_bind; [apply calc_prob1_read_only |]. intros p.
  apply read_only_ret.
Qed.

Lemma extract_read_only (result : Store.loc) (qubit : Qubit) :
  Store.read_only (extract result qubit).
Proof.
  unfold extract, Store.extract_prob1_data.
  apply read_only_for_each. intros i s. apply extract_step_read_only.
Qed.

(** The fit changes nothing in the store. *)
Lemma analyse_store (result : Store.loc) (qubit : Qubit) (h : heap) :
  (analyse qubit h).2 = (extract result qubit h).2.
Proof.
  unfold analyse, StoreFit.analyse_qubit, Store.bind, Store.lift, extract,
    Store.extract_prob1_data.
  destruct (Store.for_each (seq 0 n_exps)
              (Store.extract_step ResultData get_counts marginal_counts
                 ir_result qubit) (replicate n_exps 0%Q) h) as [[data|e] h'];
    reflexivity.
Qed.

(** When [calc_prob1] returns, it has read a dictionary. *)
Lemma calc_prob1_returns (counts : Store.loc) (h h' : heap) (p : Q) :
  Store.calc_prob1 counts h = (Returns p, h') ->
  h' = h
  /\ exists d : Counts,
       h !! counts = Some (Store.DictObj d) /\ calc_prob1 d = Returns p.
Proof.
  intros Hcalc.
  assert (Hh : h' = h).
  { rewrite <- (calc_prob1_unchanged counts h), Hcalc. reflexivity. }
  split; [exact Hh |].
  destruct (h !! counts) as [[d|r]|] eqn:Hc.
  - exists d. split; [reflexivity |].
    rewrite <- (calc_prob1_of_dict counts h d Hc), Hcalc. reflexivity.
  - unfold Store.calc_prob1, Store.bind, Store.get in Hcalc.
    rewrite Hc in Hcalc. simpl in Hcalc. discriminate.
  - unfold Store.calc_prob1, Store.bind, Store.get in Hcalc.
    rewrite Hc in Hcalc. simpl in Hcalc. discriminate.
Qed.

(** When the loop returns, every experiment has consumed a dictionary that
    is in the store, unchanged, when the loop ends, and the array holds for
    it what [calc_prob1] gives on that dictionary. *)
Lemma loop_consumed (qubit : Qubit) (len start : nat) (prob_1s data : list Q)
    (h h' : heap) :
  Store.for_each (seq start len) (step qubit) prob_1s h = (Returns data, h') ->
  length data = length prob_1s
  /\ (forall exp : nat,
        (start <= exp < start + len)%nat ->
        exists (c : Store.loc) (d : Counts) (p : Q),
          h' !! c = Some (Store.DictObj d)
          /\ calc_prob1 d = Returns p
          /\ ((exp < length prob_1s)%nat -> data !! exp = Some p))
  /\ (forall i : nat,
        ~ (start <= i < start + len)%nat -> data !! i = prob_1s !! i).
Proof.
  revert start prob_1s h. induction len as [|len IH]; intros start prob_1s h.
  - simpl. unfold Store.ret. intros Hrun. inversion Hrun; subst.
    split; [reflexivity |]. split; [intros exp Hexp; lia | reflexivity].
  - simpl. unfold Store.bind at 1.
    destruct (step qubit start prob_1s h) as [[s1|e] h1] eqn:Hstep;
      [| discriminate].
    intros Hrest.
    assert (Hkeep : forall (l : Store.loc) (o : Store.object ResultData),
               h1 !! l = Some o -> h' !! l = Some o).
    { intros l o Hl.
      pose proof (read_only_for_each (seq (S start) len) (step qubit)
                    (extract_step_read_only qubit) s1 h1 l o Hl) as Hk.
      rewrite Hrest in Hk. exact Hk. }
    unfold step, Store.extract_step, Store.bind, Store.ret in Hstep.
    fold qubit_counts in Hstep.
    destruct (qubit_counts qubit ir_result start h) as [[c|e] h0] eqn:Hqc;
      [| discriminate].
    destruct (Store.calc_prob1 c h0) as [[p|e] h0'] eqn:Hcalc;
      [| discriminate].
    inversion Hstep; subst s1 h1.
    destruct (calc_prob1_returns c h0 h0' p Hcalc) as [-> (d & Hd & Hp)].
    apply IH in Hrest. destruct Hrest as (Hlen & Hin & Hout).
    rewrite length_insert in Hlen. split; [exact Hlen |]. split.
    + intros exp Hexp. destruct (decide (exp = start)) as [-> | Hne].
      * exists c, d, p. split; [apply Hkeep; exact Hd |].
        split; [exact Hp |]. intros Hlt.
        rewrite Hout by lia. apply list_lookup_insert_eq. exact Hlt.
      * destruct (Hin exp) as (c' & d' & p' & Hc' & Hp' & Hdata); [lia |].
        exists c', d', p'. split; [exact Hc' |]. split; [exact Hp' |].
        intros Hlt. apply Hdata. rewrite length_insert. exact Hlt.
    + intros i Hi. rewrite Hout by lia. apply list_lookup_insert_ne. lia.
Qed.

(** C7. The counts consumers are read-only.  [calc_prob1] only calls
    [counts.get]: it returns what the pure function returns on the
    dictionary and leaves the store as it is.  [get_qubit_counts],
    [extract_prob1_data] and the analysis of a qubit, fit included, leave
    every object that exists when they are called, the result object and
    the counts dictionaries among them, as it was; the fit adds no change
    to the store.  Every dictionary that the extraction has consumed is
    still in the store when the extraction ends, with the counts the
    returned probability was computed from: if the dictionaries of the
    store then hold non-negative counts, the probabilities lie between 0
    and 1. *)
Theorem counts_consumers_read_only (h : heap) (counts result : Store.loc)
    (qubit : Qubit) (idx : nat) :
  (Store.calc_prob1 counts h).2 = h
  /\ (forall d : Counts,
        h !! counts = Some (Store.DictObj d) ->
        (Store.calc_prob1 counts h).1 = calc_prob1 d)
  /\ (forall (l : Store.loc) (o : Store.object ResultData),
        h !! l = Some o ->
        (qubit_counts qubit result idx h).2 !! l = Some o
        /\ (extract result qubit h).2 !! l = Some o
        /\ (analyse qubit h).2 !! l = Some o)
  /\ (analyse qubit h).2 = (extract result qubit h).2
  /\ (forall data : list Q,
        (extract result qubit h).1 = Returns data ->
        length data = n_exps
        /\ (forall exp : nat,
              (exp < n_exps)%nat ->
              exists (c : Store.loc) (d : Counts) (p : Q),
                (extract result qubit h).2 !! c = Some (Store.DictObj d)
                /\ calc_prob1 d = Returns p
                /\ data !! exp = Some p)
        /\ (Store.heap_wf (extract result qubit h).2 ->
            Forall (fun p => (0 <= p <= 1)%Q) data)).
Proof.
  split; [apply calc_prob1_unchanged |].
  split; [intros d Hd; apply calc_prob1_of_dict; exact Hd |].
  split; [| split; [apply analyse_store |]].
  - intros l o Hl. split; [apply get_qubit_counts_read_only; exact Hl |].
    split; [apply extract_read_only; exact Hl |].
    rewrite (analyse_store result). apply extract_read_only. exact Hl.
  - intros data Hdata.
    destruct (extract result qubit h) as [out h'] eqn:Hrun. simpl in *.
    subst out. unfold extract, Store.extract_prob1_data in Hrun.
    apply loop_consumed in Hrun. destruct Hrun as (Hlen & Hin & _).
    rewrite length_replicate in Hlen.
    assert (Hentries : forall exp : nat,
               (exp < n_exps)%nat ->
               exists (c : Store.loc) (d : Counts) (p : Q),
                 h' !! c = Some (Store.DictObj d)
                 /\ calc_prob1 d = Returns p /\ data !! exp = Some p).
    { intros exp Hexp. destruct (Hin exp) as (c & d & p & Hc & Hp & Hat); [lia |].
      exists c, d, p. split; [exact Hc |]. split; [exact Hp |].
      apply Hat. rewrite length_replicate. exact Hexp. }
    split; [exact Hlen |]. split; [exact Hentries |].
    intros Hwf. apply Forall_lookup. intros i p Hi.
    assert (Hlt : (i < n_exps)%nat) by (apply lookup_lt_Some in Hi; lia).
    destruct (Hentries i Hlt) as (c & d & p' & Hc & Hp & Hat).
    assert (p' = p) by congruence. subst p'.
    specialize (Hwf c d Hc).
    assert (Hne : dict_get d "0" 0 + dict_get d "1" 0 <> 0).
    { intros Hz. unfold calc_prob1 in Hp. rewrite Hz in Hp.
      unfold true_div in Hp. simpl in Hp. discriminate. }
    pose proof (dict_get_nonneg d "0" Hwf).
    pose proof (dict_get_nonneg d "1" Hwf).
    unfold calc_prob1 in Hp. rewrite (true_div_returns _ _ Hne) in Hp.
    inversion Hp; subst p. apply share_bounds; lia.
Qed.

End Frame.

(** The instance of the SDK calls meets what is asked of them. *)

Lemma alloc_read_only (o : Store.object SdkExample.Result) :
  Store.read_only (SdkExample.alloc o).
Proof.
  intros h l o' Hl. unfold SdkExample.alloc. cbv zeta. cbn [snd].
  unfold Store.heap, Store.loc in *.
  rewrite lookup_insert_ne; [exact Hl |].
  intros Heq. pose proof (is_fresh (dom h)) as Hfresh.
  apply Hfresh. rewrite Heq. apply elem_of_dom. rewrite Hl. eauto.
Qed.

Lemma store_get_counts_read_only (result : Store.loc) (idx : nat) :
  Store.read_only (SdkExample.store_get_counts result idx).
Proof.
  intros h l o Hl. unfold SdkExample.store_get_counts.
  destruct (h !! result) as [[d|r]|]; simpl; try exact Hl.
  destruct (SdkExample.get_counts r idx); simpl; [| exact Hl].
  apply alloc_read_only. exact Hl.
Qed.

Lemma store_get_counts_fresh (result : Store.loc) (idx : nat) :
  StoreFit.returns_fresh (SdkExample.store_get_counts result idx).
Proof.
  intros h h' l Hcall. unfold SdkExample.store_get_counts in Hcall.
  destruct (h !! result) as [[d|r]|]; try discriminate.
  destruct (SdkExample.get_counts r idx) as [counts|e]; [| discriminate].
  unfold SdkExample.alloc in Hcall. inversion Hcall; subst.
  unfold Store.heap, Store.loc in *.
  apply not_elem_of_dom_1. apply is_fresh.
Qed.

Lemma store_marginal_counts_read_only (counts : Store.loc) (indices : list nat) :
  Store.read_only (SdkExample.store_marginal_counts counts indices).
Proof.
  intros h l o Hl. unfold SdkExample.store_marginal_counts.
  destruct (h !! counts) as [[d|r]|]; simpl; try exact Hl.
  destruct (SdkExample.marginal_counts d indices); simpl; [| exact Hl].
  apply alloc_read_only. exact Hl.
Qed.

Lemma store_marginal_counts_writes_only (counts : Store.loc)
    (indices : list nat) :
  StoreFit.writes_only counts
    (SdkExample.store_marginal_counts counts indices).
Proof.
  intros h l o _ Hl. apply store_marginal_counts_read_only. exact Hl.
Qed.

(** The variant in place changes its argument, and nothing else. *)
Lemma store_marginal_counts_inplace_writes_only (counts : Store.loc)
    (indices : list nat) :
  StoreFit.writes_only counts
    (SdkExample.store_marginal_counts_inplace counts indices).
Proof.
  intros h l o Hne Hl. unfold SdkExample.store_marginal_counts_inplace.
  destruct (h !! counts) as [[d|r]|]; simpl; try exact Hl.
  destruct (SdkExample.marginal_counts d indices); simpl; [| exact Hl].
  unfold Store.heap, Store.loc in *.
  rewrite lookup_insert_ne; [exact Hl | congruence].
Qed.

Example inplace_changes_its_argument :
  (SdkExample.store_marginal_counts_inplace 2%positive [0%nat]
     SdkExample.store0).2 !! 2%positive
  = Some (Store.DictObj SdkExample.q0_counts).
Proof. vm_compute. reflexivity. Qed.

(** Even so, [get_qubit_counts] leaves the objects of the store as they
    were: what it hands to [marginal_counts] is the new dictionary. *)
Example get_qubit_counts_with_inplace :
  (Store.get_qubit_counts SdkExample.Result SdkExample.store_get_counts
     SdkExample.store_marginal_counts_inplace SdkExample.q0 1%positive 0%nat
     SdkExample.store0).2 !! 2%positive
  = Some (Store.DictObj SdkExample.shot_counts)
  /\ (Store.get_qubit_counts SdkExample.Result SdkExample.store_get_counts
        SdkExample.store_marginal_counts_inplace SdkExample.q0 1%positive
        0%nat SdkExample.store0).2 !! 1%positive
     = Some (Store.ResultObj SdkExample.ir_result).
Proof. split; vm_compute; reflexivity. Qed.

Example extract_prob1_data_q1 :
  extract_prob1_data SdkExample.Result SdkExample.get_counts
    SdkExample.marginal_counts SdkExample.ir_result SdkExample.ir_result
    SdkExample.q1
  = Returns (replicate n_exps (1 # 4)%Q).
Proof. vm_compute. reflexivity. Qed.

Example store_extract_q0 :
  (Store.extract_prob1_data SdkExample.Result SdkExample.store_get_counts
     SdkExample.store_marginal_counts 1%positive 1%positive SdkExample.q0
     SdkExample.store0).1
  = Returns (replicate n_exps (3 # 4)%Q).
Proof. vm_compute. reflexivity. Qed.

Lemma counts_consumers_read_only_witness :
  (StoreFit.analyse_qubit SdkExample.Result SdkExample.store_get_counts
     SdkExample.store_marginal_counts 1%positive SdkExample.fit_function
     SdkExample.q0 SdkExample.store0).2 !! 1%positive
  = Some (Store.ResultObj SdkExample.ir_result)
  /\ (StoreFit.analyse_qubit SdkExample.Result SdkExample.store_get_counts
        SdkExample.store_marginal_counts 1%positive SdkExample.fit_function
        SdkExample.q0 SdkExample.store0).2 !! 2%positive
     = Some (Store.DictObj SdkExample.shot_counts)
  /\ length (replicate n_exps (3 # 4)%Q) = n_exps.
Proof.
  pose proof (counts_consumers_read_only SdkExample.Result
                SdkExample.store_get_counts SdkExample.store_marginal_counts
                1%positive SdkExample.fit_function
                store_get_counts_read_only store_get_counts_fresh
                store_marginal_counts_writes_only SdkExample.store0
                2%positive 1%positive SdkExample.q0 0%nat)
    as (_ & _ & Hframe & _ & Hdata).
  split; [apply (Hframe 1%positive); reflexivity |].
  split; [apply (Hframe 2%positive); reflexivity |].
  apply (Hdata (replicate n_exps (3 # 4)%Q)). vm_compute. reflexivity.
Defined.

(** ** Further facts about the fit inputs *)

Lemma delays_second : delays !! 1%nat = Some (2 / 10 ^ 4 / 49)%R.
Proof.
  unfold delays, linspace, n_exps, min_delay, max_delay.
  rewrite list_lookup_fmap. change (seq 0 50 !! 1%nat) with (Some 1%nat).
  simpl. f_equal. field.
Qed.

(** X1. Data generated from the model determine the decay constant: a [t1]
    whose model curve passes through the data generated with [T1_true > 0]
    at the notebook's delays is [T1_true].  (Over the reals.) *)
Theorem exact_data_determine_t1 (T1_true t1 : R) :
  (0 < T1_true)%R ->
  map (fun tau => inversion_recovery_function tau t1) delays
  = map (fun tau => inversion_recovery_function tau T1_true) delays ->
  t1 = T1_true.
Proof.
  intros Hpos Hcurves.
  assert (Hat : (map (fun tau => inversion_recovery_function tau t1) delays)
                  !! 1%nat
                = (map (fun tau => inversion_recovery_function tau T1_true) delays)
                  !! 1%nat) by (rewrite Hcurves; reflexivity).
  rewrite !list_lookup_fmap, delays_second in Hat. simpl in Hat.
  inversion Hat as [Hexp]. unfold inversion_recovery_function in Hexp.
  apply exp_inv in Hexp. unfold Rdiv in Hexp.
  assert (Hinv : (/ t1 = / T1_true)%R).
  { apply (Rmult_eq_reg_l (- (2 * / 10 ^ 4 * / 49))%R); [exact Hexp | lra]. }
  rewrite <- (Rinv_inv t1), Hinv. apply Rinv_inv.
Qed.

Lemma exact_data_determine_t1_witness :
  (0 < 100)%R /\ 100%R = 100%R.
Proof.
  assert (Hpos : (0 < 100)%R) by lra.
  split; [exact Hpos |].
  exact (exact_data_determine_t1 100 100 Hpos eq_refl).
Defined.

(** Whatever is passed as [result], the extraction reads the global
    [ir_result]. *)
Example extract_prob1_data_other_result :
  extract_prob1_data SdkExample.Result SdkExample.get_counts
    SdkExample.marginal_counts SdkExample.ir_result SdkExample.empty_result
    SdkExample.q0
  = Returns (replicate n_exps (3 # 4)%Q).
Proof. vm_compute. reflexivity. Qed.

(** * Further properties of the notebooks' code *)

(** ** The delays *)

Lemma linspace_lookup (start stop : R) (num i : nat) :
  (i < num)%nat ->
  linspace start stop num !! i
  = Some (start + INR i * ((stop - start) / INR (num - 1)))%R.
Proof.
  intros Hi. unfold linspace. rewrite list_lookup_fmap.
  rewrite lookup_seq_lt by exact Hi. reflexivity.
Qed.

Lemma linspace_lookup_inv (start stop : R) (num i : nat) (v : R) :
  linspace start stop num !! i = Some v ->
  (i < num)%nat /\ v = (start + INR i * ((stop - start) / INR (num - 1)))%R.
Proof.
  intros Hv. assert (Hi : (i < num)%nat).
  { apply lookup_lt_Some in Hv. unfold linspace in Hv.
    rewrite length_map, length_seq in Hv. exact Hv. }
  split; [exact Hi |]. rewrite (linspace_lookup _ _ _ _ Hi) in Hv. congruence.
Qed.

Lemma linspace_step_pos (start stop : R) (num : nat) :
  (2 <= num)%nat -> (start < stop)%R ->
  (0 < INR (num - 1))%R /\ (0 < (stop - start) / INR (num - 1))%R.
Proof.
  intros Hnum Hlt.
  assert (Hpos : (0 < INR (num - 1))%R) by (apply lt_0_INR; lia).
  split; [exact Hpos |]. apply Rdiv_lt_0_compat; lra.
Qed.

(** X3. [np.linspace(start, stop, num)] with [num >= 2] and [start < stop]
    is a grid: [num] values, the first is [start], the last is [stop],
    consecutive values are [(stop - start)/(num - 1)] apart, and the values
    increase strictly. *)
Theorem linspace_grid (start stop : R) (num : nat) :
  (2 <= num)%nat -> (start < stop)%R ->
  length (linspace start stop num) = num
  /\ linspace start stop num !! 0%nat = Some start
  /\ linspace start stop num !! (num - 1)%nat = Some stop
  /\ (forall (i : nat) (u v : R),
        linspace start stop num !! i = Some u ->
        linspace start stop num !! S i = Some v ->
        (v - u = (stop - start) / INR (num - 1))%R)
  /\ (forall (i j : nat) (u v : R),
        (i < j)%nat ->
        linspace start stop num !! i = Some u ->
        linspace start stop num !! j = Some v ->
        (u < v)%R).
Proof.
  intros Hnum Hlt.
  destruct (linspace_step_pos start stop num Hnum Hlt) as [Hden Hstep].
  split; [| split; [| split; [| split]]].
  - unfold linspace. rewrite length_map, length_seq. reflexivity.
  - rewrite linspace_lookup by lia. f_equal. simpl. ring.
  - rewrite linspace_lookup by lia. f_equal. field; lra.
  - intros i u v Hu Hv.
    apply linspace_lookup_inv in Hu. destruct Hu as [_ ->].
    apply linspace_lookup_inv in Hv. destruct Hv as [_ ->].
    rewrite S_INR. ring.
  - intros i j u v Hij Hu Hv.
    apply linspace_lookup_inv in Hu. destruct Hu as [_ ->].
    apply linspace_lookup_inv in Hv. destruct Hv as [_ ->].
    apply Rplus_lt_compat_l. apply Rmult_lt_compat_r; [exact Hstep |].
    apply lt_INR. exact Hij.
Qed.

Lemma linspace_grid_witness :
  length delays = n_exps
  /\ delays !! 0%nat = Some min_delay
  /\ delays !! (n_exps - 1)%nat = Some max_delay.
Proof.
  assert (Hnum : (2 <= n_exps)%nat) by (unfold n_exps; lia).
  assert (Hlt : (min_delay < max_delay)%R).
  { unfold min_delay, max_delay. apply Rdiv_lt_0_compat; [lra |].
    apply pow_lt. lra. }
  destruct (linspace_grid min_delay max_delay n_exps Hnum Hlt)
    as (Hlen & Hfirst & Hlast & _).
  split; [exact Hlen |]. split; [exact Hfirst | exact Hlast].
Defined.

(** ** Units: microseconds for the fit, seconds on the chip *)

(** X4. The fit runs on delays in microseconds and the fitted [t1] is stored
    in seconds.  The two scalings undo each other, and the model at a scaled
    delay with the fitted [t1] is the model at the delay in seconds with the
    stored [t1]: the fitted curve is the curve of the stored value. *)
Theorem rescaling_is_sound (tau t1 : R) :
  scale_to_s (scale_to_us tau) = tau
  /\ inversion_recovery_function (scale_to_us tau) t1
     = inversion_recovery_function tau (scale_to_s t1)
  /\ map (fun d => inversion_recovery_function d t1) (map scale_to_us delays)
     = map (fun d => inversion_recovery_function d (scale_to_s t1)) delays.
Proof.
  assert (Hmodel : forall d : R,
             inversion_recovery_function (scale_to_us d) t1
             = inversion_recovery_function d (scale_to_s t1)).
  { intros d. unfold inversion_recovery_function, scale_to_us, scale_to_s.
    f_equal. unfold Rdiv. rewrite Rinv_mult, Rinv_inv. ring. }
  split; [| split].
  - unfold scale_to_s, scale_to_us. field.
  - apply Hmodel.
  - rewrite map_map. apply map_ext. intros d. apply Hmodel.
Qed.

(** ** The extracted probabilities *)




Section ProbDataRange.

Variable Result : Type.
Variable get_counts : Result -> nat -> outcome Counts.
Variable marginal_counts : Counts -> list nat -> outcome Counts.
Variable ir_result : Result.

Let prob1 := prob1_of_exp Result get_counts marginal_counts ir_result.
Let qubit_counts := get_qubit_counts Result get_counts marginal_counts.
Let extract := extract_prob1_data Result get_counts marginal_counts ir_result.

Lemma loop_returns_all (qubit : Qubit) (len start : nat) (prob_1s : list Q) :
  (forall exp : nat, (start <= exp < start + len)%nat ->
     ~ raises (prob1 qubit exp)) ->
  exists data : list Q,
    for_each (seq start len)
      (extract_step Result get_counts marginal_counts ir_result qubit) prob_1s
    = Returns data.
Proof.
  intros Hall.
  destruct (for_each (seq start len)
              (extract_step Result get_counts marginal_counts ir_result qubit)
              prob_1s) as [data|e] eqn:Hloop; [exists data; reflexivity |].
  exfalso. apply loop_raises in Hloop.
  destruct Hloop as (exp & Hexp & _ & Hraise).
  apply (Hall exp Hexp). fold prob1 in Hraise. rewrite Hraise. exact I.
Qed.

(** X6. [extract_prob1_data] returns an array exactly when every one of the
    [n_exps] experiments yields a probability.  If the counts that
    [get_qubit_counts] returns for the job have non-negative values, the
    array then has [n_exps] entries, each between 0 and 1. *)
Theorem extract_prob1_data_range (result : Result) (qubit : Qubit) :
  (forall (exp : nat) (counts : Counts),
      qubit_counts qubit ir_result exp = Returns counts -> counts_wf counts) ->
  ((exists data : list Q, extract result qubit = Returns data)
   <-> forall exp : nat, (exp < n_exps)%nat -> ~ raises (prob1 qubit exp))
  /\ (forall data : list Q,
        extract result qubit = Returns data ->
        length data = n_exps
        /\ Forall (fun p => (0 <= p <= 1)%Q) data).
Proof.
  intros Hwf. split; [split |].
  - intros [data Hdata] exp Hexp.
    destruct (extract_returns Result get_counts marginal_counts ir_result
                result qubit data Hdata) as [_ Hentries].
    destruct (Hentries exp Hexp) as (p & Hp & _).
    fold prob1 in Hp. rewrite Hp. simpl. tauto.
  - intros Hall. unfold extract, extract_prob1_data.
    apply loop_returns_all. intros exp Hexp. apply Hall. lia.
  - intros data Hdata.
    destruct (extract_returns Result get_counts marginal_counts ir_result
                result qubit data Hdata) as [Hlen Hentries].
    split; [exact Hlen |]. apply Forall_lookup. intros i p Hi.
    assert (Hlt : (i < n_exps)%nat).
    { apply lookup_lt_Some in Hi. lia. }
    destruct (Hentries i Hlt) as (p' & Hp' & Hlook).
    assert (p' = p) by congruence. subst p'.
    apply prob1_returns in Hp'. destruct Hp' as (counts & Hcounts & Hcalc).
    specialize (Hwf i counts Hcounts).
    assert (Hne : dict_get counts "0" 0 + dict_get counts "1" 0 <> 0).
    { intros Hz. unfold calc_prob1 in Hcalc. rewrite Hz in Hcalc.
      unfold true_div in Hcalc. simpl in Hcalc. discriminate. }
    pose proof (dict_get_nonneg counts "0" Hwf).
    pose proof (dict_get_nonneg counts "1" Hwf).
    unfold calc_prob1 in Hcalc. rewrite (true_div_returns _ _ Hne) in Hcalc.
    inversion Hcalc; subst p. apply share_bounds; lia.
Qed.

End ProbDataRange.

Lemma example_counts_wf (qubit : Qubit) (exp : nat) (counts : Counts) :
  (qubit = SdkExample.q0 \/ qubit = SdkExample.q1) ->
  get_qubit_counts SdkExample.Result SdkExample.get_counts
    SdkExample.marginal_counts qubit SdkExample.ir_result exp
  = Returns counts ->
  counts_wf counts.
Proof.
  intros Hq Hc. unfold get_qubit_counts, SdkExample.get_counts in Hc.
  destruct (SdkExample.ir_result !! exp) as [full|] eqn:Hfull;
    [| simpl in Hc; discriminate].
  unfold SdkExample.ir_result in Hfull.
  apply lookup_replicate in Hfull. destruct Hfull as [-> _]. simpl in Hc.
  destruct Hq as [-> | ->].
  - change (Returns SdkExample.q0_counts = Returns counts) in Hc.
    inversion Hc. exact q0_counts_wf.
  - assert (Hq1 : SdkExample.marginal_counts SdkExample.shot_counts
                    [index SdkExample.q1]
                  = Returns {[ "0" := 3; "1" := 1 ]})
      by (vm_compute; reflexivity).
    rewrite Hq1 in Hc. inversion Hc.
    apply map_Forall_insert_2; [lia |]. apply map_Forall_singleton. lia.
Qed.

Lemma extract_prob1_data_range_witness :
  length (replicate n_exps (3 # 4)%Q) = n_exps
  /\ Forall (fun p => (0 <= p <= 1)%Q) (replicate n_exps (3 # 4)%Q).
Proof.
  apply (proj2 (extract_prob1_data_range SdkExample.Result
                  SdkExample.get_counts SdkExample.marginal_counts
                  SdkExample.ir_result SdkExample.ir_result SdkExample.q0
                  (fun exp counts =>
                     example_counts_wf SdkExample.q0 exp counts
                       (or_introl eq_refl)))).
  vm_compute. reflexivity.
Defined.

(** ** The analysis loop *)

Lemma subplot_rows_value (n_qubits : nat) :
  subplot_rows n_qubits = if decide (n_qubits = 0%nat) then 0 else 1.
Proof.
  unfold subplot_rows. destruct (decide (n_qubits = 0%nat)) as [-> | Hn].
  - reflexivity.
  - assert (Hpos : (0 < inject_Z (Z.of_nat n_qubits) / 2)%Q).
    { apply Qlt_shift_div_l; [reflexivity |]. rewrite Qmult_0_l.
      change 0%Q with (inject_Z 0). rewrite <- Zlt_Qlt. lia. }
    pose proof (Qle_ceiling (inject_Z (Z.of_nat n_qubits) / 2)) as Hceil.
    assert (Hc : (0 < inject_Z (Qceiling (inject_Z (Z.of_nat n_qubits) / 2)))%Q).
    { eapply Qlt_le_trans; [exact Hpos | exact Hceil]. }
    change 0%Q with (inject_Z 0) in Hc. rewrite <- Zlt_Qlt in Hc. lia.
Qed.

Section AnalysisCellFacts.

Variable Result : Type.
Variable get_counts : Result -> nat -> outcome Counts.
Variable marginal_counts : Counts -> list nat -> outcome Counts.
Variable ir_result : Result.
Variable Axes : Type.
Variable fit_function : fit_function_impl.

Let analyse := analyse_qubit Result get_counts marginal_counts ir_result.
Let loop :=
  fit_qubits Result get_counts marginal_counts ir_result Axes fit_function.
Let cell :=
  analysis_cell Result get_counts marginal_counts ir_result Axes fit_function.

(** The analysis of one qubit calls [fit_function] at most once, and once
    when it returns. *)
Lemma analyse_qubit_calls (qubit : Qubit) :
  (length (run fit_function (analyse qubit)).1 <= 1)%nat
  /\ (forall r : R * list R,
        (run fit_function (analyse qubit)).2 = Returns r ->
        length (run fit_function (analyse qubit)).1 = 1%nat).
Proof.
  unfold analyse, analyse_qubit.
  destruct (extract_prob1_data Result get_counts marginal_counts ir_result
              ir_result qubit) as [data|e].
  - rewrite run_fit_t1. simpl. split; [lia | reflexivity].
  - simpl. split; [lia | discriminate].
Qed.

Lemma fit_qubits_frame (pairs : list (Qubit * Axes)) (pos : nat)
    (attrs_t1 : gmap nat R) :
  (length (loop pairs pos attrs_t1).1.1 <= length pairs)%nat
  /\ (forall k : nat,
        (k < pos \/ pos + length pairs <= k)%nat ->
        (loop pairs pos attrs_t1).1.2 !! k = attrs_t1 !! k)
  /\ ((loop pairs pos attrs_t1).2 = Returns tt ->
      length (loop pairs pos attrs_t1).1.1 = length pairs
      /\ forall k : nat,
           (pos <= k < pos + length pairs)%nat ->
           is_Some ((loop pairs pos attrs_t1).1.2 !! k)).
Proof.
  revert pos attrs_t1.
  induction pairs as [|[qubit ax] rest IH]; intros pos attrs_t1.
  - simpl. split; [lia |]. split; [reflexivity |].
    intros _. split; [reflexivity |]. intros k Hk. lia.
  - unfold loop. simpl. fold loop. fold analyse.
    destruct (analyse_qubit_calls qubit) as [Hle Hone].
    destruct (run fit_function (analyse qubit)) as [calls [[t1 y_fit]|e]];
      simpl in *.
    + specialize (Hone (t1, y_fit) eq_refl).
      specialize (IH (S pos) (<[pos := scale_to_s t1]> attrs_t1)).
      destruct (loop rest (S pos) (<[pos := scale_to_s t1]> attrs_t1))
        as [[calls' attrs'] out]; simpl in *.
      destruct IH as (IHlen & IHout & IHdone).
      rewrite length_app. split; [lia |]. split.
      * intros k Hk. rewrite IHout by lia. apply lookup_insert_ne. lia.
      * intros Hdone. destruct (IHdone Hdone) as [Hcalls Hset].
        split; [lia |]. intros k Hk.
        destruct (decide (k = pos)) as [-> | Hne].
        -- rewrite IHout by lia. rewrite lookup_insert_eq. eauto.
        -- apply Hset. lia.
    + split; [lia |]. split; [reflexivity | discriminate].
Qed.

Lemma analysis_cell_frame (qubits : list Qubit)
    (axs : list Axes) (attrs_t1 : gmap nat R) :
  (length (cell qubits axs attrs_t1).1.1
   <= length qubits `min` length axs)%nat
  /\ (forall k : nat,
        (length qubits `min` length axs <= k)%nat ->
        (cell qubits axs attrs_t1).1.2 !! k = attrs_t1 !! k)
  /\ ((cell qubits axs attrs_t1).2 = Returns tt ->
      length (cell qubits axs attrs_t1).1.1
      = (length qubits `min` length axs)%nat
      /\ forall k : nat,
           (k < length qubits `min` length axs)%nat ->
           is_Some ((cell qubits axs attrs_t1).1.2 !! k)).
Proof.
  unfold cell, analysis_cell. fold loop.
  destruct (fit_qubits_frame (zip qubits axs) 0 attrs_t1)
    as (Hlen & Hout & Hdone).
  rewrite length_zip in *. split; [exact Hlen |]. split.
  - intros k Hk. apply Hout. lia.
  - intros Hret. destruct (Hdone Hret) as [Hcalls Hset].
    split; [exact Hcalls |]. intros k Hk. apply Hset. lia.
Qed.


(** X8. The loop over [zip(chip.qubits, axs)] fits the qubits that have an
    axes and no other: [fit_function] is called at most once per pair, the
    [t1] attribute of every qubit past the shorter of the two lists is left
    as it was, and when the loop ends without an exception every paired
    qubit has been fitted, once, and has a [t1]. *)
Theorem analysis_cell_fits_paired_qubits (qubits : list Qubit)
    (axs : list Axes) (attrs_t1 : gmap nat R) :
  (length (cell qubits axs attrs_t1).1.1
   <= length qubits `min` length axs)%nat
  /\ (forall k : nat,
        (length qubits `min` length axs <= k)%nat ->
        (cell qubits axs attrs_t1).1.2 !! k = attrs_t1 !! k)
  /\ ((cell qubits axs attrs_t1).2 = Returns tt ->
      length (cell qubits axs attrs_t1).1.1
      = (length qubits `min` length axs)%nat
      /\ forall k : nat,
           (k < length qubits `min` length axs)%nat ->
           is_Some ((cell qubits axs attrs_t1).1.2 !! k)).
Proof. exact (analysis_cell_frame qubits axs attrs_t1). Qed.

(** X9. The grid asked of [plt.subplots] never has more than one row: the
    number of rows is 0 for an empty chip and 1 otherwise.  With the two
    axes per row that [plt.subplots] returns, the loop therefore fits at
    most two qubits, and a third or later qubit of the chip never gets a
    [t1]. *)
Theorem analysis_cell_at_most_two (qubits : list Qubit) (axs : list Axes)
    (attrs_t1 : gmap nat R) :
  length axs = (Z.to_nat (subplot_rows (length qubits)) * 2)%nat ->
  subplot_rows (length qubits) <= 1
  /\ (length (cell qubits axs attrs_t1).1.1 <= 2)%nat
  /\ (forall k : nat,
        (2 <= k)%nat ->
        (cell qubits axs attrs_t1).1.2 !! k = attrs_t1 !! k).
Proof.
  intros Haxs.
  assert (Hrows : subplot_rows (length qubits) <= 1).
  { rewrite subplot_rows_value. destruct (decide (length qubits = 0%nat)); lia. }
  assert (Hmin : (length qubits `min` length axs <= 2)%nat).
  { rewrite Haxs. pose proof (subplot_rows_value (length qubits)) as Hv.
    destruct (decide (length qubits = 0%nat)); rewrite Hv; simpl; lia. }
  destruct (analysis_cell_frame qubits axs attrs_t1) as (Hlen & Hout & _).
  split; [exact Hrows |]. split; [lia |].
  intros k Hk. apply Hout. lia.
Qed.

End AnalysisCellFacts.

Lemma analysis_cell_at_most_two_witness :
  (length (analysis_cell SdkExample.Result SdkExample.get_counts
             SdkExample.marginal_counts SdkExample.ir_result unit
             SdkExample.fit_function
             [SdkExample.q0; SdkExample.q1; mkQubit 2] [tt; tt] ∅).1.1
   <= 2)%nat
  /\ (analysis_cell SdkExample.Result SdkExample.get_counts
        SdkExample.marginal_counts SdkExample.ir_result unit
        SdkExample.fit_function
        [SdkExample.q0; SdkExample.q1; mkQubit 2] [tt; tt] ∅).1.2 !! 2%nat
     = (∅ : gmap nat R) !! 2%nat.
Proof.
  destruct (analysis_cell_at_most_two SdkExample.Result SdkExample.get_counts
              SdkExample.marginal_counts SdkExample.ir_result unit
              SdkExample.fit_function
              [SdkExample.q0; SdkExample.q1; mkQubit 2] [tt; tt] ∅)
    as (_ & Hcalls & Hframe).
  - vm_compute. reflexivity.
  - split; [exact Hcalls | apply Hframe; lia].
Defined.

(** ** Node colours of [plot_result] *)

Lemma colors_over_returns (range : list nat) (x : list Z) :
  Forall (fun i => (i < length x)%nat) range ->
  exists cs : list string,
    QP.colors_over range x = Returns cs
    /\ length cs = length range
    /\ forall (k i : nat) (xi : Z),
         range !! k = Some i -> x !! i = Some xi ->
         cs !! k = Some (QP.color xi).
Proof.
  induction 1 as [|i range Hi Hrange IH]; simpl.
  - exists []. split; [reflexivity |]. split; [reflexivity |].
    intros k i xi Hk. rewrite lookup_nil in Hk. discriminate.
  - destruct IH as (cs & Hcs & Hlen & Hat).
    destruct (lookup_lt_is_Some_2 x i Hi) as [xi Hxi].
    rewrite Hxi, Hcs. simpl. eexists. split; [reflexivity |].
    split; [simpl; lia |].
    intros [|k] i' xi' Hk Hxi'; simpl in *.
    + inversion Hk; subst i'. congruence.
    + eapply Hat; eassumption.
Qed.

Lemma colors_over_raises (range : list nat) (x : list Z) :
  Exists (fun i => (length x <= i)%nat) range ->
  QP.colors_over range x = Raises IndexError.
Proof.
  induction range as [|i range IH]; intros Hex.
  - inversion Hex.
  - simpl. destruct (x !! i) as [xi|] eqn:Hxi; [| reflexivity].
    rewrite IH; [reflexivity |].
    apply Exists_cons in Hex. destruct Hex as [Hi | Hrest]; [| exact Hrest].
    apply lookup_lt_Some in Hxi. lia.
Qed.

Lemma color_separates (xi xj : Z) :
  xi = 0 \/ xi = 1 -> xj = 0 \/ xj = 1 ->
  QP.color xi = QP.color xj <-> xi = xj.
Proof.
  intros [-> | ->] [-> | ->]; split; intros H;
    try reflexivity; try discriminate H.
Qed.

Lemma edge_in_range (i j : nat) (w : Q) :
  (i, j, w) ∈ MaxCut.edges -> (i < MaxCut.n)%nat /\ (j < MaxCut.n)%nat.
Proof.
  intros Hin. pose proof edges_within_n as Hall.
  unfold MaxCut.edges_in_range in Hall. rewrite Forall_forall in Hall.
  exact (Hall (i, j, w) Hin).
Qed.

(** X10. [plot_result] colours the nodes [0 .. n-1]: it raises [IndexError]
    when [x] has fewer than [n] entries and otherwise returns [n] colours,
    'r' for a node whose entry is 0 and 'b' for any other; entries past the
    [n]-th are not read.  For a binary [x], an edge of the graph is cut
    exactly when its two endpoints are drawn in different colours. *)
Theorem plot_result_colors (x : list Z) :
  ((length x < MaxCut.n)%nat -> QP.colors x = Raises IndexError)
  /\ ((MaxCut.n <= length x)%nat ->
      exists cs : list string,
        QP.colors x = Returns cs
        /\ length cs = MaxCut.n
        /\ QP.colors (take MaxCut.n x) = Returns cs
        /\ (forall (i : nat) (xi : Z),
              (i < MaxCut.n)%nat -> x !! i = Some xi ->
              cs !! i = Some (if decide (xi = 0) then "r" else "b"))
        /\ (Forall (fun v => v = 0 \/ v = 1) x ->
            forall (i j : nat) (w : Q),
              (i, j, w) ∈ MaxCut.edges ->
              (MaxCut.is_cut x (i, j, w) = true <-> cs !! i <> cs !! j))).
Proof.
  split.
  - intros Hshort. apply colors_over_raises.
    apply Exists_exists. exists (length x). split; [| lia].
    apply elem_of_seq. lia.
  - intros Hlong.
    assert (Hrange : forall y : list Z,
               (MaxCut.n <= length y)%nat ->
               Forall (fun i => (i < length y)%nat) (seq 0 MaxCut.n)).
    { intros y Hy. apply Forall_forall. intros i Hi.
      apply elem_of_seq in Hi. lia. }
    destruct (colors_over_returns (seq 0 MaxCut.n) x (Hrange x Hlong))
      as (cs & Hcs & Hlen & Hat).
    rewrite length_seq in Hlen.
    assert (Hcolor : forall (i : nat) (xi : Z),
               (i < MaxCut.n)%nat -> x !! i = Some xi ->
               cs !! i = Some (QP.color xi)).
    { intros i xi Hi Hxi. apply (Hat i i xi); [| exact Hxi].
      rewrite lookup_seq_lt by exact Hi. reflexivity. }
    exists cs. split; [exact Hcs |]. split; [exact Hlen |]. split; [| split].
    + assert (Htake : (MaxCut.n <= length (take MaxCut.n x))%nat).
      { rewrite length_take. lia. }
      destruct (colors_over_returns (seq 0 MaxCut.n) (take MaxCut.n x)
                  (Hrange _ Htake)) as (cs' & Hcs' & Hlen' & Hat').
      rewrite length_seq in Hlen'. unfold QP.colors. rewrite Hcs'. f_equal.
      apply list_eq. intros i.
      destruct (decide (i < MaxCut.n)%nat) as [Hi | Hi].
      * destruct (lookup_lt_is_Some_2 x i) as [xi Hxi]; [lia |].
        rewrite (Hcolor i xi Hi Hxi). apply (Hat' i i xi).
        -- rewrite lookup_seq_lt by exact Hi. reflexivity.
        -- rewrite lookup_take_lt by exact Hi. exact Hxi.
      * rewrite !lookup_ge_None_2 by lia. reflexivity.
    + exact Hcolor.
    + intros Hbin i j w Hedge.
      destruct (edge_in_range i j w Hedge) as [Hi Hj].
      destruct (lookup_lt_is_Some_2 x i) as [xi Hxi]; [lia |].
      destruct (lookup_lt_is_Some_2 x j) as [xj Hxj]; [lia |].
      rewrite (Hcolor i xi Hi Hxi), (Hcolor j xj Hj Hxj).
      rewrite Forall_lookup in Hbin.
      pose proof (color_separates xi xj (Hbin i xi Hxi) (Hbin j xj Hxj)) as Hsep.
      unfold MaxCut.is_cut. rewrite Hxi, Hxj, bool_decide_eq_true. split.
      * intros Hne Heq. apply Hne. f_equal. apply Hsep. congruence.
      * intros Hne Heq. apply Hne. congruence.
Qed.

Example colors_all_zero :
  QP.colors (replicate MaxCut.n 0) = Returns ["r"; "r"; "r"; "r"; "r"].
Proof. reflexivity. Qed.

Example colors_alternating :
  QP.colors MaxCut.alternating = Returns ["r"; "b"; "r"; "b"; "r"].
Proof. reflexivity. Qed.

(** ** The cut and its complement *)

Lemma is_cut_complement (x : list Z) (e : nat * nat * Q) :
  MaxCut.is_cut (QP.complement x) e = MaxCut.is_cut x e.
Proof.
  destruct e as [[i j] w]. unfold MaxCut.is_cut, QP.complement.
  rewrite !list_lookup_fmap. apply bool_decide_ext.
  destruct (x !! i) as [xi|], (x !! j) as [xj|]; simpl; split; intros H Heq;
    apply H; try discriminate; try reflexivity.
  - inversion Heq. reflexivity.
  - inversion Heq. f_equal. lia.
Qed.

Lemma cut_value_complement (es : list (nat * nat * Q)) (x : list Z) :
  MaxCut.cut_value_of es (QP.complement x) = MaxCut.cut_value_of es x.
Proof.
  unfold MaxCut.cut_value_of. f_equal. f_equal.
  induction es as [|e es IH]; [reflexivity |].
  rewrite !filter_cons, IH, is_cut_complement. reflexivity.
Qed.

Lemma binary_complement (x : list Z) :
  MaxCut.binary x -> MaxCut.binary (QP.complement x).
Proof.
  intros [Hlen Hbin]. split.
  - unfold QP.complement. rewrite length_map. exact Hlen.
  - unfold QP.complement. apply Forall_fmap.
    eapply Forall_impl; [exact Hbin |]. intros v Hv. unfold compose.
    simpl in Hv. lia.
Qed.

(** X11. Moving every node to the other partition leaves the objective as it
    is: for a binary assignment [x], the assignment [1 - x] is binary and
    the MaxCut objective has the same value on both. *)
Theorem objective_complement (x : list Z) :
  MaxCut.binary x ->
  MaxCut.binary (QP.complement x)
  /\ exists q q' : Q,
       MaxCut.objective x = Returns q
       /\ MaxCut.objective (QP.complement x) = Returns q'
       /\ (q == q')%Q.
Proof.
  intros Hx. pose proof (binary_complement x Hx) as Hx'.
  split; [exact Hx' |].
  destruct Hx as [Hlen Hbin]. destruct Hx' as [Hlen' Hbin'].
  destruct (objective_of_is_cut_value_of MaxCut.edges x Hbin)
    as (q & Hq & Hcut); [rewrite Hlen; exact edges_within_n |].
  destruct (objective_of_is_cut_value_of MaxCut.edges (QP.complement x) Hbin')
    as (q' & Hq' & Hcut'); [rewrite Hlen'; exact edges_within_n |].
  exists q, q'. split; [exact Hq |]. split; [exact Hq' |].
  rewrite Hcut, Hcut', cut_value_complement. reflexivity.
Qed.

Lemma objective_complement_witness :
  MaxCut.binary (QP.complement MaxCut.alternating)
  /\ exists q q' : Q,
       MaxCut.objective MaxCut.alternating = Returns q
       /\ MaxCut.objective (QP.complement MaxCut.alternating) = Returns q'
       /\ (q == q')%Q.
Proof.
  exact (objective_complement MaxCut.alternating binary_alternating).
Defined.

(** ** The optimum, the constraint and the penalty *)

Lemma binary_in_assignments (k : nat) (x : list Z) :
  length x = k -> Forall (fun v => v = 0 \/ v = 1) x -> x ∈ QP.assignments k.
Proof.
  revert x. induction k as [|k IH]; intros x Hlen Hbin.
  - destruct x; [| discriminate]. simpl. apply list_elem_of_singleton. reflexivity.
  - destruct x as [|v x]; [discriminate |]. simpl in Hlen.
    apply Forall_cons in Hbin. destruct Hbin as [Hv Hbin].
    assert (Hx : x ∈ QP.assignments k) by (apply IH; [lia | exact Hbin]).
    simpl. apply elem_of_app. destruct Hv as [-> | ->]; [left | right];
      apply list_elem_of_fmap; exists x; split; [reflexivity | exact Hx |
                                                 reflexivity | exact Hx].
Qed.

Lemma all_assignments_at_most_5 :
  forallb (QP.objective_at_most 5) (QP.assignments MaxCut.n) = true.
Proof. vm_compute. reflexivity. Qed.

Lemma objective_bounded (x : list Z) :
  MaxCut.binary x ->
  exists q : Q, MaxCut.objective x = Returns q /\ (q <= 5)%Q.
Proof.
  intros [Hlen Hbin].
  pose proof (binary_in_assignments MaxCut.n x Hlen Hbin) as Hin.
  pose proof all_assignments_at_most_5 as Hall.
  rewrite forallb_forall in Hall. apply list_elem_of_In in Hin.
  specialize (Hall x Hin). unfold QP.objective_at_most in Hall.
  destruct (MaxCut.objective x) as [q|e]; [| discriminate].
  exists q. split; [reflexivity |]. apply Qle_bool_iff. exact Hall.
Qed.

(** X12. The largest cut of the notebook's graph has weight 5: the objective
    is at most 5 on every binary assignment, and the assignment that puts
    nodes 1 and 3 on one side reaches 5 and satisfies the constraint
    [sum(x) == b], so the constraint does not lower the optimum. *)
Theorem maxcut_optimum :
  (forall x : list Z,
      MaxCut.binary x ->
      exists q : Q, MaxCut.objective x = Returns q /\ (q <= 5)%Q)
  /\ MaxCut.binary MaxCut.alternating
  /\ QP.constraint MaxCut.alternating = true
  /\ MaxCut.objective MaxCut.alternating = Returns 5%Q.
Proof.
  split; [exact objective_bounded |]. split; [exact binary_alternating |].
  split; vm_compute; reflexivity.
Qed.

Lemma penalty_zero (M : Q) (x : list Z) :
  QP.sum_x x = QP.b -> (QP.penalty_term M x == 0)%Q.
Proof.
  intros Hsum. unfold QP.penalty_term. rewrite Hsum, Z.sub_diag.
  exact (Qmult_0_r M).
Qed.

Lemma penalty_at_least (M : Q) (x : list Z) :
  (0 <= M)%Q -> QP.sum_x x <> QP.b -> (M <= QP.penalty_term M x)%Q.
Proof.
  intros HM Hsum. unfold QP.penalty_term.
  assert (Hsq : 1 <= (QP.b - QP.sum_x x) ^ 2) by nia.
  assert (Hq : (1 <= inject_Z ((QP.b - QP.sum_x x) ^ 2))%Q).
  { change 1%Q with (inject_Z 1). rewrite <- Zle_Qle. exact Hsq. }
  set (y := inject_Z ((QP.b - QP.sum_x x) ^ 2)) in *. clearbody y.
  apply Qle_trans with (M * 1)%Q; [rewrite Qmult_1_r; apply Qle_refl |].
  apply Qmult_le_compat_nonneg; split; Lqa.lra.
Qed.

(** X13. The penalty conversion of the constrained problem.  On a binary
    assignment that satisfies [sum(x) == b] the converted objective equals
    the objective; on one that violates it, it is lower by at least the
    penalty [M >= 0].  With a penalty of 1 or more (the notebook uses 1 and
    10) the converted objective never exceeds 5 and reaches 5 only on
    assignments that satisfy the constraint: its maximisers are those of
    the constrained problem. *)
Theorem penalty_conversion (M : Q) (x : list Z) :
  (0 <= M)%Q -> MaxCut.binary x ->
  exists q p : Q,
    MaxCut.objective x = Returns q
    /\ QP.penalized_objective M x = Returns p
    /\ (QP.constraint x = true -> (p == q)%Q)
    /\ (QP.constraint x = false -> (p <= q - M)%Q)
    /\ ((1 <= M)%Q ->
        (p <= 5)%Q /\ ((p == 5)%Q -> QP.constraint x = true)).
Proof.
  intros HM Hx. destruct (objective_bounded x Hx) as (q & Hq & Hle).
  exists q, (q - QP.penalty_term M x)%Q. split; [exact Hq |].
  split; [unfold QP.penalized_objective; rewrite Hq; reflexivity |].
  unfold QP.constraint.
  destruct (decide (QP.sum_x x = QP.b)) as [Hsum | Hsum].
  - pose proof (penalty_zero M x Hsum) as Hzero.
    split; [intros _; rewrite Hzero; ring |].
    split; [intros Hfalse; apply bool_decide_eq_false in Hfalse; contradiction |].
    intros _. split; [rewrite Hzero; Lqa.lra |].
    intros _. apply bool_decide_eq_true. exact Hsum.
  - pose proof (penalty_at_least M x HM Hsum) as Hpen.
    split; [intros Htrue; apply bool_decide_eq_true in Htrue; contradiction |].
    split; [intros _; Lqa.lra |].
    intros HM1. split; [Lqa.lra |]. intros Hp. exfalso. Lqa.lra.
Qed.

Lemma penalty_conversion_witness :
  exists q p : Q,
    MaxCut.objective (QP.complement MaxCut.alternating) = Returns q
    /\ QP.penalized_objective 1 (QP.complement MaxCut.alternating) = Returns p
    /\ (QP.constraint (QP.complement MaxCut.alternating) = true -> (p == q)%Q)
    /\ (QP.constraint (QP.complement MaxCut.alternating) = false ->
        (p <= q - 1)%Q)
    /\ ((1 <= 1)%Q ->
        (p <= 5)%Q
        /\ ((p == 5)%Q ->
            QP.constraint (QP.complement MaxCut.alternating) = true)).
Proof.
  apply (penalty_conversion 1 (QP.complement MaxCut.alternating)).
  - discriminate.
  - exact (binary_complement MaxCut.alternating binary_alternating).
Defined.

Example penalized_infeasible :
  QP.constraint (QP.complement MaxCut.alternating) = false
  /\ MaxCut.objective (QP.complement MaxCut.alternating) = Returns 5%Q
  /\ QP.penalized_objective 1 (QP.complement MaxCut.alternating)
     = Returns 4%Q.
Proof. repeat split; vm_compute; reflexivity. Qed.

(** ** The substitution of the Ising mapping *)

(** X14. The substitution [x = (1 - z)/2] matches the binary values with the
    spins: 0 with +1 and 1 with -1, each way, and under it the term
    [x_i + x_j - 2 x_i x_j] of the objective is [(1 - z_i z_j)/2]. *)
Theorem ising_substitution :
  (forall x : Z,
      x = 0 \/ x = 1 ->
      (QP.z_of_x x = 1 \/ QP.z_of_x x = -1)
      /\ (QP.x_of_z (QP.z_of_x x) == inject_Z x)%Q)
  /\ (forall z : Z,
        z = 1 \/ z = -1 ->
        exists x : Z,
          (x = 0 \/ x = 1) /\ (QP.x_of_z z == inject_Z x)%Q /\ QP.z_of_x x = z)
  /\ (forall xi xj : Z,
        xi = 0 \/ xi = 1 -> xj = 0 \/ xj = 1 ->
        (inject_Z (xi + xj - 2 * xi * xj)
         == (1 - inject_Z (QP.z_of_x xi * QP.z_of_x xj)) / 2)%Q).
Proof.
  split; [| split].
  - intros x [-> | ->]; split; try (left; reflexivity);
      try (right; reflexivity); reflexivity.
  - intros z [-> | ->]; [exists 0 | exists 1];
      (split; [lia |]); split; reflexivity.
  - intros xi xj [-> | ->] [-> | ->]; reflexivity.
Qed.

(** ** Randomized benchmarking: the execution loop *)

Section ExecutionFacts.

Variable Circuit Transpiled JobResult : Type.
Variable transpile : list Circuit -> outcome Transpiled.
Variable execute_result : Transpiled -> outcome JobResult.

Abbreviation lists := (RBRun.lists Transpiled JobResult).
Abbreviation mkLists := (RBRun.mkLists Transpiled JobResult).
Abbreviation result_list := (RBRun.result_list Transpiled JobResult).
Abbreviation transpile_list := (RBRun.transpile_list Transpiled JobResult).

Let seeds :=
  RBRun.execute_seeds Circuit Transpiled JobResult transpile execute_result.

(** What one seed contributes: its transpiled circuits and their result. *)
Definition seed_done (rb_circ_seed : list Circuit) (t : Transpiled)
    (res : JobResult) : Prop :=
  transpile rb_circ_seed = Returns t /\ execute_result t = Returns res.

Definition seed_raises (rb_circ_seed : list Circuit) (e : exception) : Prop :=
  transpile rb_circ_seed = Raises e
  \/ exists t : Transpiled,
       transpile rb_circ_seed = Returns t /\ execute_result t = Raises e.

Lemma execute_seeds_appends (rb_circs : list (list Circuit)) (st : lists) :
  exists (rs : list JobResult) (ts : list Transpiled),
    (seeds rb_circs st).1 = mkLists (result_list st ++ rs) (transpile_list st ++ ts)
    /\ length rs = length ts
    /\ (length ts <= length rb_circs)%nat
    /\ ((seeds rb_circs st).2 = Returns tt <-> length ts = length rb_circs)
    /\ (forall (k : nat) (t : Transpiled),
          ts !! k = Some t ->
          exists (seed : list Circuit) (res : JobResult),
            rb_circs !! k = Some seed /\ seed_done seed t res
            /\ rs !! k = Some res)
    /\ (forall e : exception,
          (seeds rb_circs st).2 = Raises e ->
          exists seed : list Circuit,
            rb_circs !! length ts = Some seed /\ seed_raises seed e).
Proof.
  revert st. induction rb_circs as [|seed rest IH]; intros st.
  - exists [], []. simpl. rewrite !app_nil_r. destruct st. simpl.
    split; [reflexivity |]. split; [reflexivity |]. split; [lia |].
    split; [tauto |]. split; [| discriminate].
    intros k t Hk. rewrite lookup_nil in Hk. discriminate.
  - unfold seeds. simpl. fold seeds.
    destruct (transpile seed) as [t|e] eqn:Ht.
    + destruct (execute_result t) as [res|e] eqn:Hres.
      * destruct (IH (mkLists (result_list st ++ [res]) (transpile_list st ++ [t])))
          as (rs & ts & Hst & Hlen & Hle & Hret & Hat & Herr).
        exists (res :: rs), (t :: ts). simpl in *.
        rewrite <- !app_assoc in Hst. split; [exact Hst |].
        split; [lia |]. split; [lia |]. split; [rewrite Hret; lia |]. split.
        -- intros [|k] t' Hk; simpl in *.
           ++ inversion Hk; subst t'. exists seed, res.
              split; [reflexivity |]. split; [split; assumption | reflexivity].
           ++ apply Hat. exact Hk.
        -- exact Herr.
      * exists [], []. simpl. rewrite !app_nil_r. destruct st. simpl.
        split; [reflexivity |]. split; [reflexivity |]. split; [lia |].
        split; [split; [discriminate | lia] |]. split.
        -- intros k t' Hk. rewrite lookup_nil in Hk. discriminate.
        -- intros e' He'. inversion He'; subst e'. exists seed.
           split; [reflexivity |]. right. exists t. split; assumption.
    + exists [], []. simpl. rewrite !app_nil_r. destruct st. simpl.
      split; [reflexivity |]. split; [reflexivity |]. split; [lia |].
      split; [split; [discriminate | lia] |]. split.
      * intros k t' Hk. rewrite lookup_nil in Hk. discriminate.
      * intros e' He'. inversion He'; subst e'. exists seed.
        split; [reflexivity |]. left. exact Ht.
Qed.

(** X15. The execution loop keeps [result_list] and [transpile_list] aligned:
    however the loop ends, the two lists have the same length, entry [k] of
    each comes from seed [k] (the result is the result of running that
    transpiled entry), the loop ends without an exception exactly when
    every seed has an entry, and an exception is the one raised by the
    first seed without an entry. *)
Theorem execution_lists_aligned (rb_circs : list (list Circuit)) :
  length (result_list (RBRun.execute_all Circuit Transpiled JobResult
                         transpile execute_result rb_circs).1)
  = length (transpile_list (RBRun.execute_all Circuit Transpiled JobResult
                              transpile execute_result rb_circs).1)
  /\ (length (result_list (RBRun.execute_all Circuit Transpiled JobResult
                             transpile execute_result rb_circs).1)
      <= length rb_circs)%nat
  /\ ((RBRun.execute_all Circuit Transpiled JobResult
         transpile execute_result rb_circs).2 = Returns tt
      <-> length (result_list (RBRun.execute_all Circuit Transpiled JobResult
                                 transpile execute_result rb_circs).1)
          = length rb_circs)
  /\ (forall (k : nat) (t : Transpiled),
        transpile_list (RBRun.execute_all Circuit Transpiled JobResult
                          transpile execute_result rb_circs).1 !! k = Some t ->
        exists (seed : list Circuit) (res : JobResult),
          rb_circs !! k = Some seed
          /\ transpile seed = Returns t
          /\ execute_result t = Returns res
          /\ result_list (RBRun.execute_all Circuit Transpiled JobResult
                            transpile execute_result rb_circs).1 !! k
             = Some res)
  /\ (forall e : exception,
        (RBRun.execute_all Circuit Transpiled JobResult
           transpile execute_result rb_circs).2 = Raises e ->
        exists seed : list Circuit,
          rb_circs !! length (result_list
                                (RBRun.execute_all Circuit Transpiled JobResult
                                   transpile execute_result rb_circs).1)
          = Some seed
          /\ (transpile seed = Raises e
              \/ exists t : Transpiled,
                   transpile seed = Returns t
                   /\ execute_result t = Raises e)).
Proof.
  unfold RBRun.execute_all. fold seeds.
  destruct (execute_seeds_appends rb_circs (mkLists [] []))
    as (rs & ts & Hst & Hlen & Hle & Hret & Hat & Herr).
  simpl in Hst. rewrite Hst. simpl.
  split; [exact Hlen |]. split; [lia |]. split; [rewrite Hret; lia |]. split.
  - intros k t Hk. destruct (Hat k t Hk) as (seed & res & Hseed & [Ht Hres] & Hrs).
    exists seed, res. repeat split; assumption.
  - intros e He. destruct (Herr e He) as (seed & Hseed & Hraises).
    exists seed. rewrite Hlen. split; [exact Hseed | exact Hraises].
Qed.

End ExecutionFacts.

(** ** Randomized benchmarking: decay and error per Clifford *)

Lemma EPC_factor_range (n : nat) :
  (0 <= (2 ^ n - 1) / 2 ^ n < 1)%R.
Proof.
  assert (Hpow : (0 < 2 ^ n)%R) by (apply pow_lt; lra).
  assert (Hge : (1 <= 2 ^ n)%R) by (apply pow_R1_Rle; lra).
  split.
  - apply Rle_mult_inv_pos; lra.
  - apply (Rmult_lt_reg_r (2 ^ n)); [exact Hpow |].
    unfold Rdiv. rewrite Rmult_assoc, Rinv_l by lra. lra.
Qed.

Lemma scaled_error_range (c alpha : R) :
  (0 <= c < 1)%R -> (0 <= alpha <= 1)%R ->
  (0 <= c * (1 - alpha) <= c)%R /\ (c * (1 - alpha) <= 1 - alpha)%R.
Proof.
  intros [Hlo Hhi] [Ha0 Ha1].
  assert (Hprod : (0 <= c * (1 - alpha))%R) by (apply Rmult_le_pos; lra).
  assert (Hprod' : (0 <= c * alpha)%R) by (apply Rmult_le_pos; lra).
  assert (Hprod'' : (0 <= (1 - c) * (1 - alpha))%R) by (apply Rmult_le_pos; lra).
  split; [split |]; lra.
Qed.

Lemma scaled_error_zero (c alpha : R) :
  (0 < c)%R -> (c * (1 - alpha) = 0)%R -> alpha = 1%R.
Proof.
  intros Hc Hzero. apply Rmult_integral in Hzero. lra.
Qed.

(** X16. For a decay rate [0 <= alpha <= 1], the error per Clifford lies
    between 0 and [(2^n - 1)/2^n < 1] and is at most [1 - alpha].  For one
    qubit or more it is 0 only at [alpha = 1], and [alpha] is recovered
    from it as [1 - 2^n/(2^n - 1) * EPC]. *)
Theorem EPC_range (n : nat) (alpha : R) :
  (0 <= alpha <= 1)%R ->
  (0 <= RB.EPC n alpha <= (2 ^ n - 1) / 2 ^ n)%R
  /\ (RB.EPC n alpha <= 1 - alpha)%R
  /\ ((2 ^ n - 1) / 2 ^ n < 1)%R
  /\ ((0 < n)%nat ->
      (RB.EPC n alpha = 0%R <-> alpha = 1%R)
      /\ alpha = (1 - 2 ^ n / (2 ^ n - 1) * RB.EPC n alpha)%R).
Proof.
  intros Halpha. pose proof (EPC_factor_range n) as Hc.
  destruct (scaled_error_range _ alpha Hc Halpha) as [Hrange Hle].
  unfold RB.EPC. split; [exact Hrange |]. split; [exact Hle |].
  split; [exact (proj2 Hc) |].
  intros Hn. split.
  - split; intros H.
    + apply (scaled_error_zero _ alpha (EPC_factor_pos n Hn) H).
    + subst alpha. ring.
  - assert (Hgt : (1 < 2 ^ n)%R) by (apply Rlt_pow_R1; [lra | exact Hn]).
    field. lra.
Qed.

Lemma EPC_range_witness :
  (0 <= RB.EPC 2 (1 / 2) <= (2 ^ 2 - 1) / 2 ^ 2)%R
  /\ (RB.EPC 2 (1 / 2) <= 1 - 1 / 2)%R.
Proof.
  assert (Halpha : (0 <= 1 / 2 <= 1)%R) by lra.
  destruct (EPC_range 2 (1 / 2) Halpha) as (Hrange & Hle & _).
  split; [exact Hrange | exact Hle].
Defined.

(** X17. The survival probability [A * alpha^m + B] with [A > 0] and
    [0 < alpha < 1] starts at [A + B] for length 0, decreases strictly with
    the Clifford length and stays above [B]; at [alpha = 1], where the
    error per Clifford is 0, it is [A + B] at every length. *)
Theorem survival_decays (A alpha B : R) :
  (0 < A)%R -> (0 < alpha < 1)%R ->
  RBRun.survival A alpha B 0 = (A + B)%R
  /\ (forall m : nat,
        (RBRun.survival A alpha B (S m) < RBRun.survival A alpha B m)%R
        /\ (B < RBRun.survival A alpha B m <= A + B)%R)
  /\ (forall (n m : nat),
        RBRun.survival A 1 B m = (A + B)%R /\ RB.EPC n 1 = 0%R).
Proof.
  intros HA Halpha. unfold RBRun.survival. split; [simpl; ring |]. split.
  - intros m.
    assert (Hpow : (0 < alpha ^ m)%R) by (apply pow_lt; lra).
    assert (Hle : (alpha ^ m <= 1)%R).
    { rewrite <- (pow1 m). apply pow_incr. lra. }
    assert (HAp : (0 < A * alpha ^ m)%R) by (apply Rmult_lt_0_compat; lra).
    assert (Hdrop : (0 < (1 - alpha) * (A * alpha ^ m))%R)
      by (apply Rmult_lt_0_compat; lra).
    assert (Hcap : (0 <= A * (1 - alpha ^ m))%R)
      by (apply Rmult_le_pos; lra).
    simpl. generalize dependent (alpha ^ m)%R. intros p Hp Hp1 HAp Hdrop Hcap.
    split; [lra |]. split; lra.
  - intros n m. rewrite pow1. unfold RB.EPC. split; ring.
Qed.

Lemma survival_decays_witness :
  (RBRun.survival 1 (1 / 2) 0 1 < RBRun.survival 1 (1 / 2) 0 0)%R.
Proof.
  assert (HA : (0 < 1)%R) by lra.
  assert (Halpha : (0 < 1 / 2 < 1)%R) by lra.
  destruct (survival_decays 1 (1 / 2) 0 HA Halpha) as (_ & Hdecay & _).
  exact (proj1 (Hdecay 0%nat)).
Defined.

(** * The model function on doubles *)

(** ** Doubles in order *)

Lemma digits2_pos_bounds (m : positive) :
  2 ^ (Zpos (SpecFloat.digits2_pos m) - 1) <= Zpos m
  < 2 ^ Zpos (SpecFloat.digits2_pos m).
Proof.
  induction m as [m IH | m IH |]; simpl SpecFloat.digits2_pos.
  - rewrite Pos2Z.inj_succ.
    replace (Z.succ (Zpos (SpecFloat.digits2_pos m)) - 1)
      with (Z.succ (Zpos (SpecFloat.digits2_pos m) - 1)) by lia.
    rewrite !Z.pow_succ_r by lia. lia.
  - rewrite Pos2Z.inj_succ.
    replace (Z.succ (Zpos (SpecFloat.digits2_pos m)) - 1)
      with (Z.succ (Zpos (SpecFloat.digits2_pos m) - 1)) by lia.
    rewrite !Z.pow_succ_r by lia. lia.
  - simpl. lia.
Qed.

Lemma digits2_pos_eq (m : positive) (d : Z) :
  2 ^ (d - 1) <= Zpos m < 2 ^ d -> Zpos (SpecFloat.digits2_pos m) = d.
Proof.
  intros [Hlo Hhi]. pose proof (digits2_pos_bounds m) as [Hlo' Hhi'].
  pose proof (Pos2Z.is_pos (SpecFloat.digits2_pos m)) as Hpos.
  set (d' := Zpos (SpecFloat.digits2_pos m)) in *.
  assert (Hd : 0 < d).
  { destruct (Z_lt_le_dec 0 d) as [H | H]; [exact H | exfalso].
    destruct (Z.eq_dec d 0) as [-> | Hnz]; [simpl in Hhi; lia |].
    rewrite Z.pow_neg_r in Hhi by lia. lia. }
  destruct (Z_lt_le_dec d d') as [Hlt | Hge].
  - assert (2 ^ d <= 2 ^ (d' - 1)) by (apply Z.pow_le_mono_r; lia). lia.
  - destruct (Z_lt_le_dec d' d) as [Hlt | Hge'].
    + assert (2 ^ d' <= 2 ^ (d - 1)) by (apply Z.pow_le_mono_r; lia). lia.
    + lia.
Qed.

(** A valid binary64 number has an exponent from -1074 to 971 and a
    mantissa below 2^53, which is at least 2^52 above the least exponent. *)
Lemma valid_finite_bounds (s : bool) (m : positive) (e : Z) :
  FloatAxioms.valid_binary (SpecFloat.S754_finite s m e) = true ->
  -1074 <= e <= 971
  /\ Zpos m < 9007199254740992
  /\ (-1074 < e -> 4503599627370496 <= Zpos m).
Proof.
  unfold SpecFloat.valid_binary, SpecFloat.bounded, SpecFloat.canonical_mantissa,
    SpecFloat.fexp, SpecFloat.emin, FloatOps.prec, FloatOps.emax.
  intros H. apply andb_prop in H. destruct H as [Hc He].
  apply Z.eqb_eq in Hc. apply Z.leb_le in He.
  pose proof (digits2_pos_bounds m) as [Hlo Hhi].
  pose proof (Pos2Z.is_pos (SpecFloat.digits2_pos m)) as Hd.
  set (d := Zpos (SpecFloat.digits2_pos m)) in *.
  destruct (Z.max_spec (d + e - 53) (3 - 1024 - 53)) as [[Hlt Hmax] | [Hge Hmax]];
    rewrite Hmax in Hc.
  - assert (Hd52 : d <= 52) by lia.
    assert (Hpow : 2 ^ d <= 2 ^ 52) by (apply Z.pow_le_mono_r; lia).
    change (2 ^ 52) with 4503599627370496 in Hpow.
    split; [lia |]. split; [lia |]. intros Hgt. lia.
  - assert (Hd53 : d = 53) by lia. rewrite Hd53 in *.
    change (2 ^ (53 - 1)) with 4503599627370496 in Hlo.
    change (2 ^ 53) with 9007199254740992 in Hhi.
    split; [lia |]. split; [lia |]. intros _. lia.
Qed.

Lemma rank_finite (m : positive) (e : Z) :
  F64.rank (SpecFloat.S754_finite false m e)
  = (e + 1074) * 4503599627370496 + Zpos m.
Proof. reflexivity. Qed.

Lemma rank_zero (s : bool) : F64.rank (SpecFloat.S754_zero s) = 0.
Proof. reflexivity. Qed.

(** On the non-negative finite doubles, the order is the order of the
    positions. *)
Lemma rank_compare (a b : SpecFloat.spec_float) :
  FloatAxioms.valid_binary a = true -> FloatAxioms.valid_binary b = true ->
  F64.nonneg_finite a -> F64.nonneg_finite b ->
  SpecFloat.SFcompare a b = Some (F64.rank a ?= F64.rank b).
Proof.
  intros Va Vb Na Nb.
  destruct a as [sa | sa | | sa ma ea], b as [sb | sb | | sb mb eb];
    simpl in Na, Nb; try contradiction.
  - reflexivity.
  - destruct sb; [contradiction |].
    apply valid_finite_bounds in Vb.
    unfold SpecFloat.SFcompare. rewrite rank_zero, rank_finite. f_equal.
    symmetry. apply Z.compare_lt_iff. lia.
  - destruct sa; [contradiction |].
    apply valid_finite_bounds in Va.
    unfold SpecFloat.SFcompare. rewrite rank_zero, rank_finite. f_equal.
    symmetry. apply Z.compare_gt_iff. lia.
  - destruct sa; [contradiction |]. destruct sb; [contradiction |].
    apply valid_finite_bounds in Va. apply valid_finite_bounds in Vb.
    unfold SpecFloat.SFcompare. rewrite !rank_finite. f_equal.
    destruct (Z.compare_spec ea eb) as [Heq | Hlt | Hgt].
    + subst eb. change (Pos.compare_cont Eq ma mb) with (Pos.compare ma mb).
      rewrite Pos2Z.inj_compare. symmetry.
      destruct (Z.compare_spec (Z.pos ma) (Z.pos mb)) as [H | H | H].
      * apply Z.compare_eq_iff. lia.
      * apply Z.compare_lt_iff. lia.
      * apply Z.compare_gt_iff. lia.
    + symmetry. apply Z.compare_lt_iff. lia.
    + symmetry. apply Z.compare_gt_iff. lia.
Qed.

(** Every position up to that of the largest finite double is taken. *)
Lemma unrank_spec (k : Z) :
  0 <= k < 2047 * 4503599627370496 ->
  FloatAxioms.valid_binary (F64.unrank k) = true
  /\ F64.nonneg_finite (F64.unrank k)
  /\ F64.rank (F64.unrank k) = k.
Proof.
  intros Hk. unfold F64.unrank.
  destruct (Z.eqb_spec k 0) as [-> | Hne]; [repeat split |].
  destruct (Z.ltb_spec k 4503599627370496) as [Hsub | Hnorm].
  - split; [| split; [exact I |]].
    + unfold SpecFloat.valid_binary, SpecFloat.bounded,
        SpecFloat.canonical_mantissa, SpecFloat.fexp, SpecFloat.emin,
        FloatOps.prec, FloatOps.emax.
      pose proof (digits2_pos_bounds (Z.to_pos k)) as [Hlo Hhi].
      pose proof (Pos2Z.is_pos (SpecFloat.digits2_pos (Z.to_pos k))) as Hpos.
      rewrite Z2Pos.id in Hlo by lia.
      set (d := Zpos (SpecFloat.digits2_pos (Z.to_pos k))) in *.
      assert (Hd : d <= 52).
      { destruct (Z_lt_le_dec 52 d) as [H | H]; [| exact H].
        assert (2 ^ 52 <= 2 ^ (d - 1)) by (apply Z.pow_le_mono_r; lia).
        change (2 ^ 52) with 4503599627370496 in *. lia. }
      apply andb_true_intro. split; [apply Z.eqb_eq; lia | apply Z.leb_le; lia].
    + rewrite rank_finite. rewrite Z2Pos.id by lia. lia.
  - pose proof (Z.mod_pos_bound k 4503599627370496 ltac:(lia)) as Hmod.
    pose proof (Z.div_mod k 4503599627370496 ltac:(lia)) as Hdm.
    assert (Hq : 1 <= k / 4503599627370496 <= 2046).
    { split.
      - apply Z.div_le_lower_bound; lia.
      - apply Z.lt_succ_r. apply Z.div_lt_upper_bound; lia. }
    split; [| split; [exact I |]].
    + unfold SpecFloat.valid_binary, SpecFloat.bounded,
        SpecFloat.canonical_mantissa, SpecFloat.fexp, SpecFloat.emin,
        FloatOps.prec, FloatOps.emax.
      rewrite (digits2_pos_eq _ 53).
      * apply andb_true_intro. split; [apply Z.eqb_eq; lia | apply Z.leb_le; lia].
      * rewrite Z2Pos.id by lia. change (2 ^ (53 - 1)) with 4503599627370496.
        change (2 ^ 53) with 9007199254740992. lia.
    + rewrite rank_finite. rewrite Z2Pos.id by lia. lia.
Qed.

Lemma Prim2SF_zero :
  FloatOps.Prim2SF PrimFloat.zero = SpecFloat.S754_zero false.
Proof. reflexivity. Qed.

Lemma Prim2SF_one :
  FloatOps.Prim2SF PrimFloat.one
  = SpecFloat.S754_finite false 4503599627370496 (-52).
Proof. reflexivity. Qed.

Lemma ltb_rank (x y : PrimFloat.float) :
  F64.nonneg_finite (FloatOps.Prim2SF x) ->
  F64.nonneg_finite (FloatOps.Prim2SF y) ->
  PrimFloat.ltb x y
  = (F64.rank (FloatOps.Prim2SF x) <? F64.rank (FloatOps.Prim2SF y)).
Proof.
  intros Nx Ny. rewrite FloatAxioms.ltb_spec. unfold SpecFloat.SFltb.
  rewrite (rank_compare _ _ (FloatAxioms.Prim2SF_valid x)
             (FloatAxioms.Prim2SF_valid y) Nx Ny).
  unfold Z.ltb.
  destruct (F64.rank (FloatOps.Prim2SF x) ?= F64.rank (FloatOps.Prim2SF y));
    reflexivity.
Qed.

Lemma leb_rank (x y : PrimFloat.float) :
  F64.nonneg_finite (FloatOps.Prim2SF x) ->
  F64.nonneg_finite (FloatOps.Prim2SF y) ->
  PrimFloat.leb x y
  = (F64.rank (FloatOps.Prim2SF x) <=? F64.rank (FloatOps.Prim2SF y)).
Proof.
  intros Nx Ny. rewrite FloatAxioms.leb_spec. unfold SpecFloat.SFleb.
  rewrite (rank_compare _ _ (FloatAxioms.Prim2SF_valid x)
             (FloatAxioms.Prim2SF_valid y) Nx Ny).
  unfold Z.leb.
  destruct (F64.rank (FloatOps.Prim2SF x) ?= F64.rank (FloatOps.Prim2SF y));
    reflexivity.
Qed.

(** A double in (0, 1] is a positive finite number, at a position from 1 to
    [rank_one]. *)
Lemma unit_interval_rank (v : PrimFloat.float) :
  PrimFloat.ltb PrimFloat.zero v = true ->
  PrimFloat.leb v PrimFloat.one = true ->
  F64.nonneg_finite (FloatOps.Prim2SF v)
  /\ 1 <= F64.rank (FloatOps.Prim2SF v) <= F64.rank_one.
Proof.
  intros Hpos Hle.
  assert (Hfin : exists m e,
             FloatOps.Prim2SF v = SpecFloat.S754_finite false m e).
  { rewrite FloatAxioms.ltb_spec, Prim2SF_zero in Hpos.
    rewrite FloatAxioms.leb_spec, Prim2SF_one in Hle.
    destruct (FloatOps.Prim2SF v) as [s | s | | s m e]; try discriminate.
    - destruct s; discriminate.
    - destruct s; [discriminate |]. exists m, e. reflexivity. }
  destruct Hfin as (m & e & Hv).
  assert (Nv : F64.nonneg_finite (FloatOps.Prim2SF v)) by (rewrite Hv; exact I).
  split; [exact Nv |]. split.
  - pose proof (FloatAxioms.Prim2SF_valid v) as Hvalid. rewrite Hv in *.
    apply valid_finite_bounds in Hvalid. rewrite rank_finite. lia.
  - rewrite leb_rank in Hle; [| exact Nv | rewrite Prim2SF_one; exact I].
    apply Z.leb_le in Hle. rewrite Prim2SF_one in Hle. exact Hle.
Qed.

Lemma float_of_rank_spec (k : Z) :
  0 <= k <= F64.rank_one ->
  F64.nonneg_finite (FloatOps.Prim2SF (F64.float_of_rank k))
  /\ F64.rank (FloatOps.Prim2SF (F64.float_of_rank k)) = k.
Proof.
  intros Hk. unfold F64.rank_one in Hk.
  destruct (unrank_spec k) as (Hvalid & Hnn & Hrank); [lia |].
  unfold F64.float_of_rank. rewrite (FloatAxioms.Prim2SF_SF2Prim _ Hvalid).
  split; assumption.
Qed.

(** ** No strictly decreasing map of [0, 1] into (0, 1] *)

Section Pigeonhole.

Variable f : PrimFloat.float -> PrimFloat.float.

Hypothesis f_decreasing :
  forall tau tau' : PrimFloat.float,
    PrimFloat.leb PrimFloat.zero tau = true ->
    PrimFloat.ltb tau tau' = true ->
    PrimFloat.ltb (f tau') (f tau) = true.

Hypothesis f_range :
  forall tau : PrimFloat.float,
    PrimFloat.leb PrimFloat.zero tau = true ->
    PrimFloat.ltb PrimFloat.zero (f tau) = true
    /\ PrimFloat.leb (f tau) PrimFloat.one = true.

Lemma float_of_rank_nonneg (k : Z) :
  0 <= k <= F64.rank_one ->
  PrimFloat.leb PrimFloat.zero (F64.float_of_rank k) = true.
Proof.
  intros Hk. destruct (float_of_rank_spec k Hk) as [Hnn Hrank].
  rewrite leb_rank; [| rewrite Prim2SF_zero; exact I | exact Hnn].
  rewrite Prim2SF_zero, Hrank, rank_zero. apply Z.leb_le. lia.
Qed.

Lemma value_rank (k : Z) :
  0 <= k <= F64.rank_one ->
  F64.nonneg_finite (FloatOps.Prim2SF (f (F64.float_of_rank k)))
  /\ 1 <= F64.rank (FloatOps.Prim2SF (f (F64.float_of_rank k)))
     <= F64.rank_one.
Proof.
  intros Hk. destruct (f_range _ (float_of_rank_nonneg k Hk)) as [Hpos Hle].
  exact (unit_interval_rank _ Hpos Hle).
Qed.

Lemma value_rank_drops (k : Z) :
  0 <= k -> k + 1 <= F64.rank_one ->
  F64.rank (FloatOps.Prim2SF (f (F64.float_of_rank (k + 1))))
  < F64.rank (FloatOps.Prim2SF (f (F64.float_of_rank k))).
Proof.
  intros Hk Hk1.
  destruct (float_of_rank_spec k) as [Hnn Hrank]; [lia |].
  destruct (float_of_rank_spec (k + 1)) as [Hnn' Hrank']; [lia |].
  assert (Hlt : PrimFloat.ltb (F64.float_of_rank k) (F64.float_of_rank (k + 1))
                = true).
  { rewrite (ltb_rank _ _ Hnn Hnn'), Hrank, Hrank'. apply Z.ltb_lt. lia. }
  pose proof (f_decreasing _ _ (float_of_rank_nonneg k ltac:(lia)) Hlt) as Hdrop.
  destruct (value_rank k) as [Nv _]; [lia |].
  destruct (value_rank (k + 1)) as [Nv' _]; [lia |].
  rewrite (ltb_rank _ _ Nv' Nv) in Hdrop. apply Z.ltb_lt in Hdrop. exact Hdrop.
Qed.

Lemma value_rank_bound (n : nat) :
  Z.of_nat n <= F64.rank_one ->
  F64.rank (FloatOps.Prim2SF (f (F64.float_of_rank (Z.of_nat n))))
  <= F64.rank_one - Z.of_nat n.
Proof.
  induction n as [|n IH]; intros Hn.
  - destruct (value_rank 0) as [_ Hr]; [unfold F64.rank_one; lia |].
    change (Z.of_nat 0) with 0. lia.
  - rewrite Nat2Z.inj_succ in *. unfold Z.succ in *.
    pose proof (value_rank_drops (Z.of_nat n) ltac:(lia) Hn). lia.
Qed.

(** The doubles from 0 to 1 are one more than the doubles in (0, 1]. *)
Lemma no_decreasing_map : False.
Proof.
  pose proof (value_rank_bound (Z.to_nat F64.rank_one)) as Hbound.
  rewrite Z2Nat.id in Hbound by (unfold F64.rank_one; lia).
  specialize (Hbound ltac:(lia)).
  destruct (value_rank F64.rank_one) as [_ Hr]; [unfold F64.rank_one; lia |].
  lia.
Qed.

End Pigeonhole.

Lemma model_at_one (np_exp : PrimFloat.float -> PrimFloat.float)
    (tau : PrimFloat.float) :
  F64.inversion_recovery_function np_exp tau PrimFloat.one
  = Returns (np_exp (PrimFloat.div (PrimFloat.opp tau) PrimFloat.one)).
Proof. reflexivity. Qed.

(** C9, as stated, fails on doubles.  Whatever [np.exp] returns, at the
    decay constant [t1 = 1.0] the values of the model cannot both decrease
    strictly with the delay on [tau >= 0] and lie in (0, 1]: there are
    more doubles from 0 to 1 than doubles in (0, 1]. *)
Lemma decay_claim_fails_on_doubles :
  PrimFloat.ltb PrimFloat.zero PrimFloat.one = true
  /\ ~ exists np_exp : PrimFloat.float -> PrimFloat.float,
         F64.decay_claim np_exp PrimFloat.one.
Proof.
  split; [reflexivity |].
  intros (np_exp & _ & Hdecr & Hrange).
  apply (no_decreasing_map
           (fun tau => np_exp (PrimFloat.div (PrimFloat.opp tau) PrimFloat.one))).
  - intros tau tau' Htau Hlt.
    exact (Hdecr tau tau' _ _ Htau Hlt (model_at_one np_exp tau)
             (model_at_one np_exp tau')).
  - intros tau Htau. exact (Hrange tau _ Htau (model_at_one np_exp tau)).
Qed.

(** ** The model at delay 0, on doubles *)

Lemma positive_double (t1 : PrimFloat.float) :
  PrimFloat.ltb PrimFloat.zero t1 = true ->
  (exists (m : positive) (e : Z),
      FloatOps.Prim2SF t1 = SpecFloat.S754_finite false m e)
  \/ FloatOps.Prim2SF t1 = SpecFloat.S754_infinity false.
Proof.
  intros Hpos. rewrite FloatAxioms.ltb_spec, Prim2SF_zero in Hpos.
  destruct (FloatOps.Prim2SF t1) as [s | s | | s m e]; try discriminate.
  - destruct s; [discriminate |]. right. reflexivity.
  - destruct s; [discriminate |]. left. exists m, e. reflexivity.
Qed.

(** X18. On doubles, for every decay constant [t1 > 0], finite or not,
    [-0.0/t1] is [-0.0]: [inversion_recovery_function(0.0, t1)] raises
    nothing and is [np.exp(-0.0)], so it is 1.0 as soon as [np.exp] maps
    [-0.0] to 1.0. *)
Theorem model_at_zero_delay (np_exp : PrimFloat.float -> PrimFloat.float)
    (t1 : PrimFloat.float) :
  PrimFloat.ltb PrimFloat.zero t1 = true ->
  PrimFloat.div (PrimFloat.opp PrimFloat.zero) t1 = PrimFloat.neg_zero
  /\ F64.inversion_recovery_function np_exp PrimFloat.zero t1
     = Returns (np_exp PrimFloat.neg_zero)
  /\ (np_exp PrimFloat.neg_zero = PrimFloat.one ->
      F64.inversion_recovery_function np_exp PrimFloat.zero t1
      = Returns PrimFloat.one).
Proof.
  intros Hpos.
  assert (Hdiv : PrimFloat.div (PrimFloat.opp PrimFloat.zero) t1
                 = PrimFloat.neg_zero).
  { apply FloatAxioms.Prim2SF_inj. rewrite FloatAxioms.div_spec.
    change (FloatOps.Prim2SF (PrimFloat.opp PrimFloat.zero))
      with (SpecFloat.S754_zero true).
    change (FloatOps.Prim2SF PrimFloat.neg_zero) with (SpecFloat.S754_zero true).
    destruct (positive_double t1 Hpos) as [(m & e & ->) | ->]; reflexivity. }
  assert (Hnz : PrimFloat.eqb t1 PrimFloat.zero = false).
  { rewrite FloatAxioms.eqb_spec, Prim2SF_zero.
    destruct (positive_double t1 Hpos) as [(m & e & ->) | ->]; reflexivity. }
  assert (Hval : F64.inversion_recovery_function np_exp PrimFloat.zero t1
                 = Returns (np_exp PrimFloat.neg_zero)).
  { unfold F64.inversion_recovery_function. rewrite Hnz, Hdiv. reflexivity. }
  split; [exact Hdiv |]. split; [exact Hval |].
  intros Hexp. rewrite Hval, Hexp. reflexivity.
Qed.

Lemma model_at_zero_delay_witness :
  F64.inversion_recovery_function (fun x => PrimFloat.one) PrimFloat.zero
    PrimFloat.one
  = Returns PrimFloat.one.
Proof.
  apply (proj2 (proj2 (model_at_zero_delay (fun x => PrimFloat.one)
                         PrimFloat.one eq_refl))).
  reflexivity.
Defined.
